(** * github-snippets: the weekly activity report (main.go)

    A shallow embedding of the classification and reconciliation code of
    [main.go]: the name registry ([addName], [overrideName]), discovery
    ([organizeEvents], [addIssue], [addPR]), pull-request URL decomposition
    ([crackPRInfo]), reconciliation ([getPRs], [makeEventSets]) and the
    report assembler ([printSection], [markdown]).

    Conventions.
    - A Go [string] is a sequence of bytes: Rocq's [string].
    - A Go [map[url]T] is a [gmap string T], a [map[url]struct{}] a
      [gset string].
    - [log.Fatalf] ends the process: a function that may reach it returns
      [Fatal e], every other log call is dropped.
    - Go leaves the order of [range] over a map open.  The loops of
      [getPRs] and [makeEventSets] are folds over the enumeration
      [map_to_list]: what they compute is the same for every enumeration
      without repeated keys ([getPRs_loop_spec],
      [foldl_classify_Permutation]).  The report, whose lines do depend on
      the order, takes the enumeration as an argument. *)

From Stdlib Require Import ZArith Ascii String.
From stdpp Require Import base option list strings gmap fin_maps fin_sets.

Local Open Scope Z_scope.
#[local] Set Warnings "-clear-no-such-hyp".

(** ** Fatal errors *)

(** One constructor per [log.Fatalf] of the modelled code. *)
Inductive fatal : Type :=
  | BadPrefix (u : string)
  | IncorrectNumberOfSplits (u : string)
  | UnableToParseFourthSplit (u : string)
  | UnableToParseEvent
  | UnableToGetPR (u : string).

Inductive result (A : Type) : Type :=
  | Ok (a : A)
  | Fatal (e : fatal).
Arguments Ok {A} a.
Arguments Fatal {A} e.

Definition rbind {A B : Type} (r : result A) (k : A → result B) : result B :=
  match r with
  | Ok a => k a
  | Fatal e => Fatal e
  end.

Notation "x ←! r ;; k" := (rbind r (λ x, k))
  (at level 100, r at next level, right associativity, only parsing).

Definition is_Ok {A : Type} (r : result A) : Prop := ∃ a, r = Ok a.

(** ** The parts of Go's [strings] package the program calls *)

Module Strings.

(** [strings.HasPrefix(s, prefix)]. *)
Fixpoint HasPrefix (s prefix : string) {struct prefix} : bool :=
  match prefix, s with
  | EmptyString, _ => true
  | String p prefix', String c s' => Ascii.eqb c p && HasPrefix s' prefix'
  | String _ _, EmptyString => false
  end.

Fixpoint drop (n : nat) (s : string) : string :=
  match n, s with
  | O, _ => s
  | S n', String _ s' => drop n' s'
  | S _, EmptyString => EmptyString
  end.

(** [strings.TrimPrefix(s, prefix)]: [s[len(prefix):]] when [s] has the
    prefix, [s] itself otherwise. *)
Definition TrimPrefix (s prefix : string) : string :=
  if HasPrefix s prefix then drop (String.length prefix) s else s.

(** [strings.Split(s, sep)] for a separator of one byte: the substrings
    between the separators, one more than there are separators (so
    [Split "" sep] is [[""]]). *)
Fixpoint Split (s : string) (sep : ascii) : list string :=
  match s with
  | EmptyString => [EmptyString]
  | String c s' =>
      if Ascii.eqb c sep then EmptyString :: Split s' sep
      else match Split s' sep with
           | seg :: segs => String c seg :: segs
           | [] => [String c EmptyString]
           end
  end.

(** [strings.Join(elems, sep)]. *)
Fixpoint Join (elems : list string) (sep : string) : string :=
  match elems with
  | [] => EmptyString
  | [x] => x
  | x :: xs => x +:+ sep +:+ Join xs sep
  end.

(** [strings.Replace(s, old, new, -1)] for an [old] of one byte: every
    occurrence is replaced. *)
Fixpoint Replace (s : string) (old : ascii) (new : string) : string :=
  match s with
  | EmptyString => EmptyString
  | String c s' =>
      if Ascii.eqb c old then new +:+ Replace s' old new
      else String c (Replace s' old new)
  end.

(** No byte of [s] is [c]. *)
Fixpoint free_of (c : ascii) (s : string) : bool :=
  match s with
  | EmptyString => true
  | String a s' => negb (Ascii.eqb a c) && free_of c s'
  end.

(** The number of bytes of [s] equal to [c]: [strings.Count(s, c)] for a
    one-byte [c]. *)
Fixpoint Count (s : string) (c : ascii) : nat :=
  match s with
  | EmptyString => O
  | String a s' => if Ascii.eqb a c then S (Count s' c) else Count s' c
  end.

Fixpoint take (n : nat) (s : string) : string :=
  match n, s with
  | O, _ => EmptyString
  | S n', String a s' => String a (take n' s')
  | S _, EmptyString => EmptyString
  end.

(** [strings.HasSuffix(s, suffix)]:
    [len(s) >= len(suffix) && s[len(s)-len(suffix):] == suffix]. *)
Definition HasSuffix (s suffix : string) : bool :=
  (String.length suffix <=? String.length s)%nat &&
  bool_decide (drop (String.length s - String.length suffix) s = suffix).

(** [strings.TrimSuffix(s, suffix)]: [s[:len(s)-len(suffix)]] when [s] has
    the suffix, [s] itself otherwise. *)
Definition TrimSuffix (s suffix : string) : string :=
  if HasSuffix s suffix
  then take (String.length s - String.length suffix) s
  else s.

End Strings.

(** ** [strconv.Atoi] *)

Module Strconv.

(** The size of Go's [int] on the 64-bit platforms the tool runs on. *)
Definition intSize : Z := 64.
Definition maxInt : Z := 2 ^ (intSize - 1) - 1.
Definition minInt : Z := - 2 ^ (intSize - 1).

Definition digit (c : ascii) : option Z :=
  let d := Z.of_N (N_of_ascii c) - 48 in
  if (0 <=? d) && (d <=? 9) then Some d else None.

(** The digit loop: [n = n*10 + int(ch - '0')], a syntax error on a byte
    that is no decimal digit. *)
Fixpoint digits (s : string) (n : Z) : option Z :=
  match s with
  | EmptyString => Some n
  | String ch s' =>
      match digit ch with
      | Some d => digits s' (n * 10 + d)
      | None => None
      end
  end.

(** [strconv.Atoi(s)]: an optional sign, then at least one decimal digit
    and nothing else; a value outside of [int] is a range error.  [None]
    is a non-nil [err]. *)
Definition Atoi (s : string) : option Z :=
  match s with
  | EmptyString => None
  | String s0 rest =>
      let neg := Ascii.eqb s0 "-" in
      let body := if neg || Ascii.eqb s0 "+" then rest else s in
      match body with
      | EmptyString => None
      | String _ _ =>
          match digits body 0 with
          | Some n =>
              let v := if neg then - n else n in
              if (minInt <=? v) && (v <=? maxInt) then Some v else None
          | None => None
          end
      end
  end.

(** The syntax [Atoi] accepts, for its characterisation: a string of
    decimal digits and the number it denotes after the digits read so far
    gave [n]. *)
Fixpoint allDigits (s : string) : bool :=
  match s with
  | EmptyString => true
  | String c s' =>
      (48 <=? N_of_ascii c)%N && (N_of_ascii c <=? 57)%N && allDigits s'
  end.

Fixpoint decimalValue (s : string) (n : Z) : Z :=
  match s with
  | EmptyString => n
  | String c s' => decimalValue s' (n * 10 + (Z.of_N (N_of_ascii c) - 48))
  end.

End Strconv.

(** ** Data model *)

(** [type url string]; [type urlSet map[url]struct{}]. *)
Abbreviation url := string (only parsing).
Abbreviation urlSet := (gset string) (only parsing).

Record prInfo : Type := mkPrInfo {
  owner : string;
  repo : string;
  number : Z
}.

(** ** Pull-request URL decomposition *)

(** The platform's web root, the [prefix] of [crackPRInfo]. *)
Definition webRoot : string := "https://github.com/".

Definition crackPRInfo (u : string) : result prInfo :=
  let prefix := webRoot in
  if negb (Strings.HasPrefix u prefix) then Fatal (BadPrefix u)
  else
    let u' := Strings.TrimPrefix u prefix in
    let splits := Strings.Split u' "/" in
    if (length splits <? 4)%nat then Fatal (IncorrectNumberOfSplits u')
    else
      match Strconv.Atoi (default EmptyString (splits !! 3%nat)) with
      | None => Fatal (UnableToParseFourthSplit u')
      | Some n =>
          Ok {| owner := default EmptyString (splits !! 0%nat);
                repo := default EmptyString (splits !! 1%nat);
                number := n |}
      end.

(** What a successful decomposition of [u] into [info] amounts to: [u] is
    the web root followed by at least four segments, the fourth of which
    [strconv.Atoi] accepts. *)
Definition decomposes (u : string) (info : prInfo) : Prop :=
  ∃ (rest o r k n : string) (tl : list string) (v : Z),
    u = webRoot +:+ rest ∧
    Strings.Split rest "/" = o :: r :: k :: n :: tl ∧
    Strconv.Atoi n = Some v ∧
    info = {| owner := o; repo := r; number := v |}.

(** The decomposition in the specification's words, in which the fourth
    segment has to parse as a positive integer. *)
Definition spec_crackPRInfo (u : string) : option prInfo :=
  if Strings.HasPrefix u webRoot then
    match Strings.Split (Strings.TrimPrefix u webRoot) "/" with
    | o :: r :: _ :: n :: _ =>
        match Strconv.Atoi n with
        | Some v =>
            if 0 <? v then Some {| owner := o; repo := r; number := v |}
            else None
        | None => None
        end
    | _ => None
    end
  else None.

(** ** The go-github values the program reads *)

(** Only the fields the program reads are kept.  A pointer field that may
    be nil is an [option]; the library's getters return the zero value of
    the field's type on nil. *)
Module github.

Record User : Type := mkUser { user_Login : option string }.

Record Label : Type := mkLabel { label_Name : option string }.

(** [issue_PullRequestLinks] is [i.PullRequestLinks != nil], which is what
    [IsPullRequest] returns. *)
Record Issue : Type := mkIssue {
  issue_Title : option string;
  issue_HTMLURL : option string;
  issue_PullRequestLinks : bool
}.

Record PullRequest : Type := mkPullRequest {
  pr_Title : option string;
  pr_HTMLURL : option string;
  pr_User : option User;
  pr_State : option string;
  pr_Merged : option bool;
  pr_Labels : list Label
}.

Definition GetLogin (u : option User) : string :=
  default EmptyString (u ≫= user_Login).

Definition GetName (l : Label) : string := default EmptyString (label_Name l).

Definition IsPullRequest (i : Issue) : bool := issue_PullRequestLinks i.

Definition GetUser (p : PullRequest) : option User := pr_User p.

Definition GetState (p : PullRequest) : string :=
  default EmptyString (pr_State p).

Definition GetMerged (p : PullRequest) : bool := default false (pr_Merged p).

(** The payloads [organizeEvents] tells apart; [OtherEvent] is every other
    type [ParsePayload] can return. *)
Inductive Payload : Type :=
  | IssueCommentEvent (i : Issue)
  | IssuesEvent (i : Issue)
  | PullRequestEvent (p : PullRequest)
  | PullRequestReviewCommentEvent (p : PullRequest)
  | CommitCommentEvent
  | CreateEvent
  | PushEvent
  | DeleteEvent
  | OtherEvent.

(** An event is kept as the outcome of its [ParsePayload()]: [None] is a
    non-nil [err]. *)
Record Event : Type := mkEvent { ParsePayload : option Payload }.

End github.

Import github.

(** [type nameable interface { GetTitle() string; GetHTMLURL() string }] *)
Class nameable (A : Type) : Type := {
  GetTitle : A → string;
  GetHTMLURL : A → string
}.

#[global] Instance Issue_nameable : nameable Issue := {|
  GetTitle i := default EmptyString (issue_Title i);
  GetHTMLURL i := default EmptyString (issue_HTMLURL i)
|}.

#[global] Instance PullRequest_nameable : nameable PullRequest := {|
  GetTitle p := default EmptyString (pr_Title p);
  GetHTMLURL p := default EmptyString (pr_HTMLURL p)
|}.

(** ** The name registry and discovery *)

Record issuesAndPRs : Type := mkIssuesAndPRs {
  ge_names : gmap string string;
  ge_issues : gmap string Issue;
  ge_prs : gmap string prInfo
}.

(** [fmt.Sprintf("[%s](%s)", n.GetTitle(), n.GetHTMLURL())] *)
Definition formatName {A : Type} `{nameable A} (n : A) : string :=
  "[" +:+ GetTitle n +:+ "](" +:+ GetHTMLURL n +:+ ")".

Definition overrideName {A : Type} `{nameable A}
    (e : issuesAndPRs) (u : url) (n : A) : issuesAndPRs :=
  {| ge_names := <[u := formatName n]> (ge_names e);
     ge_issues := ge_issues e;
     ge_prs := ge_prs e |}.

(** The method mutates [e] and returns the url: the model returns both. *)
Definition addName {A : Type} `{nameable A}
    (e : issuesAndPRs) (n : A) : issuesAndPRs * url :=
  let u := GetHTMLURL n in
  match ge_names e !! u with
  | None => (overrideName e u n, u)
  | Some _ => (e, u)
  end.

Definition addIssue (e : issuesAndPRs) (i : Issue) : result issuesAndPRs :=
  let '(e, u) := addName e i in
  if IsPullRequest i then
    info ←! crackPRInfo (GetHTMLURL i) ;;
    Ok {| ge_names := ge_names e;
          ge_issues := ge_issues e;
          ge_prs := <[u := info]> (ge_prs e) |}
  else
    match ge_issues e !! u with
    | None =>
        Ok {| ge_names := ge_names e;
              ge_issues := <[u := i]> (ge_issues e);
              ge_prs := ge_prs e |}
    | Some _ => Ok e
    end.

Definition addPR (e : issuesAndPRs) (pr : PullRequest) : result issuesAndPRs :=
  let '(e, u) := addName e pr in
  match ge_prs e !! u with
  | None =>
      info ←! crackPRInfo (GetHTMLURL pr) ;;
      Ok {| ge_names := ge_names e;
            ge_issues := ge_issues e;
            ge_prs := <[u := info]> (ge_prs e) |}
  | Some _ => Ok e
  end.

(** The first loop of [organizeEvents]: every payload is parsed before any
    is routed. *)
Fixpoint parsePayloads (events : list Event) : result (list Payload) :=
  match events with
  | [] => Ok []
  | event :: events' =>
      match ParsePayload event with
      | None => Fatal UnableToParseEvent
      | Some p => parsed ←! parsePayloads events' ;; Ok (p :: parsed)
      end
  end.

(** The body of the type switch. *)
Definition routeEvent (ge : issuesAndPRs) (event : Payload)
    : result issuesAndPRs :=
  match event with
  | IssueCommentEvent i => addIssue ge i
  | IssuesEvent i => addIssue ge i
  | PullRequestEvent p => addPR ge p
  | PullRequestReviewCommentEvent p => addPR ge p
  | CommitCommentEvent | CreateEvent | PushEvent | DeleteEvent
  | OtherEvent => Ok ge
  end.

Fixpoint routeEvents (ge : issuesAndPRs) (parsed : list Payload)
    : result issuesAndPRs :=
  match parsed with
  | [] => Ok ge
  | event :: parsed' => ge' ←! routeEvent ge event ;; routeEvents ge' parsed'
  end.

Definition organizeEvents (events : list Event) : result issuesAndPRs :=
  parsed ←! parsePayloads events ;;
  routeEvents {| ge_names := ∅; ge_issues := ∅; ge_prs := ∅ |} parsed.

(** The identifier and the formatted label of the issue or pull request a
    payload refers to; [None] for the payloads that are ignored. *)
Definition payloadItem (p : Payload) : option (url * string) :=
  match p with
  | IssueCommentEvent i | IssuesEvent i => Some (GetHTMLURL i, formatName i)
  | PullRequestEvent pr | PullRequestReviewCommentEvent pr =>
      Some (GetHTMLURL pr, formatName pr)
  | CommitCommentEvent | CreateEvent | PushEvent | DeleteEvent
  | OtherEvent => None
  end.

(** The label of the first payload of the sequence that refers to [u]. *)
Fixpoint firstSeen (parsed : list Payload) (u : url) : option string :=
  match parsed with
  | [] => None
  | p :: parsed' =>
      match payloadItem p with
      | Some (u', name) =>
          if decide (u' = u) then Some name else firstSeen parsed' u
      | None => firstSeen parsed' u
      end
  end.

(** The identifier a payload hands to [crackPRInfo], if it is routed as a
    pull request. *)
Definition payloadPR (p : Payload) : option url :=
  match p with
  | IssueCommentEvent i | IssuesEvent i =>
      if IsPullRequest i then Some (GetHTMLURL i) else None
  | PullRequestEvent pr | PullRequestReviewCommentEvent pr =>
      Some (GetHTMLURL pr)
  | CommitCommentEvent | CreateEvent | PushEvent | DeleteEvent
  | OtherEvent => None
  end.

(** The payload's pull-request identifier, if any, decomposes. *)
Definition cracks (p : Payload) : Prop :=
  match payloadPR p with
  | Some u => is_Ok (crackPRInfo u)
  | None => True
  end.

(** ** Reconciliation *)

Record eventSets : Type := mkEventSets {
  names : gmap string string;
  merged : gset string;
  abandoned : gset string;
  underReview : gset string;
  inProgress : gset string;
  reviewed : gset string;
  issues : gset string
}.

(** The designated work-in-progress label. *)
Definition wipLabel : string := "do-not-merge/work-in-progress".

Fixpoint isWorkInProgress (labels : list Label) : bool :=
  match labels with
  | [] => false
  | l :: labels' =>
      if decide (GetName l = wipLabel) then true else isWorkInProgress labels'
  end.

Section Reconciliation.

(** [*user], the acting user, and the remote side of
    [client.PullRequests.Get(ctx, owner, repo, number)]: [None] is a
    non-nil [err]. *)
Variable user : string.
Variable PullRequests_Get : string → string → Z → option PullRequest.

(** One iteration of the loop of [getPRs], on the pair of [newPRs] and the
    receiver, whose name map the loop writes. *)
Definition getPRs_body (st : gmap string PullRequest * issuesAndPRs)
    (kv : string * prInfo) : result (gmap string PullRequest * issuesAndPRs) :=
  let '(newPRs, e) := st in
  let '(u, pr) := kv in
  match PullRequests_Get (owner pr) (repo pr) (number pr) with
  | None => Fatal (UnableToGetPR u)
  | Some newPR => Ok (<[u := newPR]> newPRs, overrideName e u newPR)
  end.

Fixpoint getPRs_loop (st : gmap string PullRequest * issuesAndPRs)
    (l : list (string * prInfo))
    : result (gmap string PullRequest * issuesAndPRs) :=
  match l with
  | [] => Ok st
  | kv :: l' => st' ←! getPRs_body st kv ;; getPRs_loop st' l'
  end.

Definition getPRs (e : issuesAndPRs)
    : result (gmap string PullRequest * issuesAndPRs) :=
  getPRs_loop (∅, e) (map_to_list (ge_prs e)).

(** One iteration of the first loop of [makeEventSets]. *)
Definition classify (es : eventSets) (kv : string * PullRequest) : eventSets :=
  let '(u, pr) := kv in
  if decide (GetLogin (GetUser pr) ≠ user) then
    {| names := names es; merged := merged es; abandoned := abandoned es;
       underReview := underReview es; inProgress := inProgress es;
       reviewed := {[u]} ∪ reviewed es; issues := issues es |}
  else if decide (GetState pr = "open") then
    if isWorkInProgress (pr_Labels pr) then
      {| names := names es; merged := merged es; abandoned := abandoned es;
         underReview := underReview es; inProgress := {[u]} ∪ inProgress es;
         reviewed := reviewed es; issues := issues es |}
    else
      {| names := names es; merged := merged es; abandoned := abandoned es;
         underReview := {[u]} ∪ underReview es; inProgress := inProgress es;
         reviewed := reviewed es; issues := issues es |}
  else if decide (GetState pr = "closed") then
    if GetMerged pr then
      {| names := names es; merged := {[u]} ∪ merged es;
         abandoned := abandoned es;
         underReview := underReview es; inProgress := inProgress es;
         reviewed := reviewed es; issues := issues es |}
    else
      {| names := names es; merged := merged es;
         abandoned := {[u]} ∪ abandoned es;
         underReview := underReview es; inProgress := inProgress es;
         reviewed := reviewed es; issues := issues es |}
  else es.

(** One iteration of the second loop of [makeEventSets]. *)
Definition addIssueURL (es : eventSets) (kv : string * Issue) : eventSets :=
  {| names := names es; merged := merged es; abandoned := abandoned es;
     underReview := underReview es; inProgress := inProgress es;
     reviewed := reviewed es; issues := {[kv.1]} ∪ issues es |}.

(** [eventSets.names] is the map [e.names] itself, not a copy: what
    [getPRs] writes to [e.names] is seen through it, so the registry of
    the result is the one [getPRs] leaves behind. *)
Definition makeEventSets (e : issuesAndPRs) : result eventSets :=
  st ←! getPRs e ;;
  let '(prs, e') := st in
  let eventSets :=
    {| names := ge_names e'; merged := ∅; abandoned := ∅; underReview := ∅;
       inProgress := ∅; reviewed := ∅; issues := ∅ |} in
  let eventSets := foldl classify eventSets (map_to_list prs) in
  let eventSets := foldl addIssueURL eventSets (map_to_list (ge_issues e')) in
  Ok {| names := ge_names e'; merged := merged eventSets;
        abandoned := abandoned eventSets;
        underReview := underReview eventSets;
        inProgress := inProgress eventSets;
        reviewed := reviewed eventSets; issues := issues eventSets |}.

End Reconciliation.

(** The five pull-request categories and the set of [eventSets] each one
    names. *)
Inductive category : Type :=
  | Merged | Abandoned | UnderReview | InProgress | Reviewed.

Definition categorySet (c : category) (es : eventSets) : gset string :=
  match c with
  | Merged => merged es
  | Abandoned => abandoned es
  | UnderReview => underReview es
  | InProgress => inProgress es
  | Reviewed => reviewed es
  end.

(** The fetched label set contains the work-in-progress label. *)
Definition hasWipLabel (pr : PullRequest) : Prop :=
  ∃ l, l ∈ pr_Labels pr ∧ GetName l = wipLabel.

(** The classification rule in the specification's words, in its order of
    precedence: another author, then open with or without the label, then
    closed and merged or not; no category for any other state. *)
Definition spec_category (user : string) (pr : PullRequest)
    : option category :=
  if decide (GetLogin (GetUser pr) = user) then
    if decide (GetState pr = "open") then
      if isWorkInProgress (pr_Labels pr) then Some InProgress
      else Some UnderReview
    else if decide (GetState pr = "closed") then
      if GetMerged pr then Some Merged else Some Abandoned
    else None
  else Some Reviewed.

(** The reply of the remote side for the coordinates of a reference. *)
Definition fetch (PullRequests_Get : string → string → Z → option PullRequest)
    (info : prInfo) : option PullRequest :=
  PullRequests_Get (owner info) (repo info) (number info).

(** Every query of the reconciliation of [e] is answered. *)
Definition allFetched
    (PullRequests_Get : string → string → Z → option PullRequest)
    (e : issuesAndPRs) : Prop :=
  ∀ u info, ge_prs e !! u = Some info → is_Some (fetch PullRequests_Get info).

(** The six sets of a partition, in the order of the report. *)
Definition sixSets (es : eventSets) : list (gset string) :=
  [merged es; abandoned es; underReview es; inProgress es; reviewed es;
   issues es].

Definition pairwiseDisjoint (l : list (gset string)) : Prop :=
  ∀ (i j : nat) (X Y : gset string),
    i ≠ j → l !! i = Some X → l !! j = Some Y → X ## Y.

(** Every identifier discovered: the plain issues and the pull-request
    references. *)
Definition discovered (e : issuesAndPRs) : gset string :=
  dom (ge_issues e) ∪ dom (ge_prs e).

(** A reference whose fetched state is neither "open" nor "closed". *)
Definition unknownState
    (PullRequests_Get : string → string → Z → option PullRequest)
    (e : issuesAndPRs) (u : url) : Prop :=
  ∃ info pr, ge_prs e !! u = Some info ∧
             fetch PullRequests_Get info = Some pr ∧
             GetState pr ≠ "open" ∧ GetState pr ≠ "closed".

(** The union of the six sets in the specification's words: everything
    discovered but the references in an unknown state. *)
Definition spec_covers
    (PullRequests_Get : string → string → Z → option PullRequest)
    (e : issuesAndPRs) (es : eventSets) : Prop :=
  ∀ u, u ∈ ⋃ (sixSets es)
       ↔ u ∈ discovered e ∧ ¬ unknownState PullRequests_Get e u.

(** A reference that [makeEventSets] leaves out of every category: the
    acting user's own pull request in an unknown state. *)
Definition skipped (user : string)
    (PullRequests_Get : string → string → Z → option PullRequest)
    (e : issuesAndPRs) (u : url) : Prop :=
  ∃ info pr, ge_prs e !! u = Some info ∧
             fetch PullRequests_Get info = Some pr ∧
             GetLogin (GetUser pr) = user ∧
             GetState pr ≠ "open" ∧ GetState pr ≠ "closed".

(** ** The report *)

Definition tab : ascii := "009"%char.
Definition newline : string := String "010"%char EmptyString.

Section Report.

(** The order in which [range] visits a set. *)
Variable range : gset string → list string.

(** The loop of [printSection]. *)
Definition printSection_body (names : gmap string string)
    (md : list string) (u : string) : list string :=
  match names !! u with
  | Some name => md ++ [String tab (String tab ("* " +:+ name))]
  | None => md
  end.

Definition printSection (names : gmap string string) (section : gset string)
    (title : string) : list string :=
  if (0 <? size section)%nat then
    foldl (printSection_body names) [String tab ("* " +:+ title)]
      (range section)
  else [].

Definition markdown (e : eventSets) : string :=
  let md := ["* GitHub"] in
  let md := md ++ printSection (names e) (merged e) "Merged" in
  let md := md ++ printSection (names e) (abandoned e) "Abandoned" in
  let md := md ++ printSection (names e) (underReview e) "Under Review" in
  let md := md ++ printSection (names e) (inProgress e) "In Progress" in
  let md := md ++ printSection (names e) (reviewed e) "Reviewed" in
  let md := md ++ printSection (names e) (issues e) "Issues" in
  let markdown := Strings.Join md newline in
  Strings.Replace markdown tab "    ".

End Report.

(** The categories of a partition with their titles, in the order of the
    report. *)
Definition categories (e : eventSets) : list (gset string * string) :=
  [(merged e, "Merged"); (abandoned e, "Abandoned");
   (underReview e, "Under Review"); (inProgress e, "In Progress");
   (reviewed e, "Reviewed"); (issues e, "Issues")].

(** An indented sub-heading and a doubly-indented member line, as
    [printSection] formats them. *)
Definition headingLine (title : string) : string :=
  String tab ("* " +:+ title).
Definition memberLine (name : string) : string :=
  String tab (String tab ("* " +:+ name)).

(** One line per listed member that has a registered name. *)
Definition memberLines (names : gmap string string) (members : list url)
    : list string :=
  omap (λ u, memberLine <$> names !! u) members.

(** The block of a category in the specification's words: nothing for a
    category without members, otherwise the sub-heading followed by the
    lines of its members, each member taken once, in some order. *)
Definition spec_block (names : gmap string string)
    (block : list string) (category : gset string * string) : Prop :=
  if decide (category.1 = ∅) then block = []
  else ∃ members, members ≡ₚ elements category.1 ∧
                  block = headingLine category.2 :: memberLines names members.

(** Joining the lines and expanding the tabs, the last two steps of
    [markdown]. *)
Definition render (lines : list string) : string :=
  Strings.Replace (Strings.Join lines newline) tab "    ".

(** ** A sample run *)

Module Sample.

Definition me : string := "Harwayne".

Definition url1 : url := "https://github.com/knative/eventing/pull/1".
Definition url2 : url := "https://github.com/knative/eventing/pull/2".
Definition url3 : url := "https://github.com/knative/eventing/pull/3".
Definition url4 : url := "https://github.com/knative/eventing/issues/4".

Definition pull (title : string) (u : url) (login state : string)
    (isMerged : bool) (labels : list string) : PullRequest :=
  {| pr_Title := Some title; pr_HTMLURL := Some u;
     pr_User := Some {| user_Login := Some login |};
     pr_State := Some state; pr_Merged := Some isMerged;
     pr_Labels := (λ l, {| label_Name := Some l |}) <$> labels |}.

Definition issue (title : string) (u : url) (isPR : bool) : Issue :=
  {| issue_Title := Some title; issue_HTMLURL := Some u;
     issue_PullRequestLinks := isPR |}.

(** Newest first: the acting user's pull request 1 (seen again in an older
    comment under an older title), a pull request of somebody else, the
    user's pull request 3, a plain issue and a push. *)
Definition events : list Event :=
  [ {| ParsePayload :=
         Some (PullRequestEvent (pull "Add broker" url1 me "open" false [])) |};
    {| ParsePayload :=
         Some (IssueCommentEvent (issue "WIP broker" url1 true)) |};
    {| ParsePayload :=
         Some (PullRequestReviewCommentEvent
                 (pull "Fix trigger" url2 "somebody" "open" false [])) |};
    {| ParsePayload :=
         Some (PullRequestEvent (pull "Bump deps" url3 me "open" false [])) |};
    {| ParsePayload := Some (IssuesEvent (issue "Flaky test" url4 false)) |};
    {| ParsePayload := Some PushEvent |} ].

Definition parsed : list Payload :=
  [ PullRequestEvent (pull "Add broker" url1 me "open" false []);
    IssueCommentEvent (issue "WIP broker" url1 true);
    PullRequestReviewCommentEvent
      (pull "Fix trigger" url2 "somebody" "open" false []);
    PullRequestEvent (pull "Bump deps" url3 me "open" false []);
    IssuesEvent (issue "Flaky test" url4 false);
    PushEvent ].

(** What discovery leaves behind on [events]. *)
Definition ge : issuesAndPRs :=
  {| ge_names :=
       {[ url1 := "[Add broker](https://github.com/knative/eventing/pull/1)";
          url2 := "[Fix trigger](https://github.com/knative/eventing/pull/2)";
          url3 := "[Bump deps](https://github.com/knative/eventing/pull/3)";
          url4 := "[Flaky test](https://github.com/knative/eventing/issues/4)"
       ]};
     ge_issues := {[ url4 := issue "Flaky test" url4 false ]};
     ge_prs :=
       {[ url1 := {| owner := "knative"; repo := "eventing"; number := 1 |};
          url2 := {| owner := "knative"; repo := "eventing"; number := 2 |};
          url3 := {| owner := "knative"; repo := "eventing"; number := 3 |} ]}
  |}.

(** The current state of the three pull requests: 1 is the user's, open
    and labelled work in progress; 2 is somebody else's, closed and merged;
    3 is the user's, closed and merged. *)
Definition pr1 : PullRequest :=
  pull "Add broker v2" url1 me "open" false [wipLabel].
Definition pr2 : PullRequest :=
  pull "Fix trigger" url2 "somebody" "closed" true [].
Definition pr3 : PullRequest :=
  pull "Bump deps" url3 me "closed" true [].

Definition Get (_ _ : string) (n : Z) : option PullRequest :=
  Some (if n =? 1 then pr1 else if n =? 2 then pr2 else pr3).

(** What reconciliation makes of [ge]. *)
Definition sets : eventSets :=
  {| names :=
       {[ url1
            := "[Add broker v2](https://github.com/knative/eventing/pull/1)";
          url2 := "[Fix trigger](https://github.com/knative/eventing/pull/2)";
          url3 := "[Bump deps](https://github.com/knative/eventing/pull/3)";
          url4 := "[Flaky test](https://github.com/knative/eventing/issues/4)"
       ]};
     merged := {[ url3 ]}; abandoned := ∅; underReview := ∅;
     inProgress := {[ url1 ]}; reviewed := {[ url2 ]};
     issues := {[ url4 ]} |}.

(** A partition with a member that has no name. *)
Definition nameless : eventSets :=
  {| names := {[ url4 := "[Flaky test]" ]};
     merged := {[ url3 ]}; abandoned := ∅; underReview := ∅;
     inProgress := ∅; reviewed := ∅; issues := {[ url4 ]} |}.

(** A run on which an identifier is both a plain issue and a pull request,
    and somebody else's pull request is in a state that is neither open
    nor closed. *)
Definition clashEvents : list Event :=
  [ {| ParsePayload := Some (IssuesEvent (issue "Add broker" url1 false)) |};
    {| ParsePayload :=
         Some (PullRequestEvent (pull "Add broker" url1 me "open" false [])) |};
    {| ParsePayload :=
         Some (PullRequestEvent
                 (pull "Fix trigger" url2 "somebody" "open" false [])) |} ].

Definition clashGet (_ _ : string) (n : Z) : option PullRequest :=
  Some (if n =? 1 then pull "Add broker" url1 me "open" false []
        else pull "Fix trigger" url2 "somebody" "locked" false []).

(** What discovery and reconciliation make of it. *)
Definition clashGe : issuesAndPRs :=
  {| ge_names :=
       {[ url1 := "[Add broker](https://github.com/knative/eventing/pull/1)";
          url2 := "[Fix trigger](https://github.com/knative/eventing/pull/2)"
       ]};
     ge_issues := {[ url1 := issue "Add broker" url1 false ]};
     ge_prs :=
       {[ url1 := {| owner := "knative"; repo := "eventing"; number := 1 |};
          url2 := {| owner := "knative"; repo := "eventing"; number := 2 |} ]}
  |}.

Definition clashSets : eventSets :=
  {| names := ge_names clashGe;
     merged := ∅; abandoned := ∅; underReview := {[ url1 ]};
     inProgress := ∅; reviewed := {[ url2 ]}; issues := {[ url1 ]} |}.

End Sample.

(** * Further code

    The rest of [main.go] ([lastCompletedWeekMonday], [readOauthToken],
    [listEvents], [filterEventsForTime], the [addName] of [eventSets], the
    last steps of [main]) and the earlier variant of the program, with the
    notions their properties are stated with. *)

(** ** Notions for the properties of discovery *)

(** The plain issue a payload carries: the issue of an issue event, unless
    it stands for a pull request. *)
Definition payloadIssue (p : Payload) : option Issue :=
  match p with
  | IssueCommentEvent i | IssuesEvent i =>
      if IsPullRequest i then None else Some i
  | PullRequestEvent _ | PullRequestReviewCommentEvent _
  | CommitCommentEvent | CreateEvent | PushEvent | DeleteEvent
  | OtherEvent => None
  end.

(** The first plain issue of the sequence with the identifier [u]. *)
Fixpoint firstIssue (parsed : list Payload) (u : url) : option Issue :=
  match parsed with
  | [] => None
  | p :: parsed' =>
      match payloadIssue p with
      | Some i =>
          if decide (GetHTMLURL i = u) then Some i else firstIssue parsed' u
      | None => firstIssue parsed' u
      end
  end.

(** The payload is one of the four kinds that are routed. *)
Definition routed (p : Payload) : bool :=
  match payloadItem p with
  | Some _ => true
  | None => false
  end.

(** Every pull-request reference holds the decomposition of its key. *)
Definition prsCracked (ge : issuesAndPRs) : Prop :=
  ∀ u info, ge_prs ge !! u = Some info → crackPRInfo u = Ok info.

(** The state [organizeEvents] starts from. *)
Definition emptyIssuesAndPRs : issuesAndPRs :=
  {| ge_names := ∅; ge_issues := ∅; ge_prs := ∅ |}.

(** The registry has a name for exactly the identifiers of the plain issues
    and of the pull-request references. *)
Definition namesCover (ge : issuesAndPRs) : Prop :=
  dom (ge_names ge) = dom (ge_issues ge) ∪ dom (ge_prs ge).

(** The decomposition of [u], if there is one. *)
Definition cracked (u : url) : option prInfo :=
  match crackPRInfo u with
  | Ok info => Some info
  | Fatal _ => None
  end.


(** ** The last steps of [main] *)

(** [ge := organizeEvents(fe); oe := ge.makeEventSets(client);
    md := oe.markdown()]: what [main] prints for the events [fe] that are
    left after filtering. *)
Definition report (user : string)
    (PullRequests_Get : string → string → Z → option PullRequest)
    (range : gset string → list string) (fe : list Event) : result string :=
  ge ←! organizeEvents fe ;;
  oe ←! makeEventSets user PullRequests_Get ge ;;
  Ok (markdown range oe).

(** The five pull-request sets of a partition. *)
Definition fiveSets (es : eventSets) : list (gset string) :=
  [merged es; abandoned es; underReview es; inProgress es; reviewed es].

(** A member line and a sub-heading as they are printed, with spaces. *)
Definition printedHeading (title : string) : string := "    * " +:+ title.
Definition printedMember (name : string) : string := "        * " +:+ name.

(** The lines of the report as they are printed when no name has a tab. *)
Definition printedLines (range : gset string → list string) (e : eventSets)
    : list string :=
  "* GitHub" ::
  flat_map
    (λ category : gset string * string,
       if decide (category.1 = ∅) then []
       else printedHeading category.2 ::
            omap (λ u, printedMember <$> names e !! u) (range category.1))
    (categories e).

(** A reconciliation in which the query for pull request 2 fails. *)
Definition failingGet (o r : string) (n : Z) : option PullRequest :=
  if n =? 2 then None else Sample.Get o r n.

(** The acting user's pull request 1 in a state that is neither open nor
    closed. *)
Definition lockedGet (_ _ : string) (n : Z) : option PullRequest :=
  Some (Sample.pull "Add broker" Sample.url1 Sample.me "locked" false []).

Definition lockedGe : issuesAndPRs :=
  {| ge_names := {[ Sample.url1 := "[Add broker]" ]};
     ge_issues := ∅;
     ge_prs :=
       {[ Sample.url1
            := {| owner := "knative"; repo := "eventing"; number := 1 |} ]}
  |}.

Definition lockedSets : eventSets :=
  {| names :=
       {[ Sample.url1
            := "[Add broker](https://github.com/knative/eventing/pull/1)" ]};
     merged := ∅; abandoned := ∅; underReview := ∅; inProgress := ∅;
     reviewed := ∅; issues := ∅ |}.

(** ** The reporting period *)

(** A calendar day is the number of days since 1 January 1970, which was a
    Thursday: the [time.Time] at midnight UTC of that day.  [AddDate(0, 0,
    -k)] of such a time is the day [k] days earlier. *)
Inductive Weekday : Type :=
  | Sunday | Monday | Tuesday | Wednesday | Thursday | Friday | Saturday.

(** [t.Weekday()] *)
Definition WeekdayOf (day : Z) : Weekday :=
  match (day + 4) mod 7 with
  | 0 => Sunday
  | 1 => Monday
  | 2 => Tuesday
  | 3 => Wednesday
  | 4 => Thursday
  | 5 => Friday
  | _ => Saturday
  end.

(** [lastCompletedWeekMonday], as a function of [today], the calendar day
    of [time.Now()].  The switch covers the seven days, so the [log.Fatal]
    after it is never reached. *)
Definition lastCompletedWeekMonday (today : Z) : Z :=
  match WeekdayOf today with
  | Monday => today - 7
  | Tuesday => today - 8
  | Wednesday => today - 9
  | Thursday => today - 10
  | Friday => today - 11
  | Saturday => today - 12
  | Sunday => today - 13
  end.

(** An event with its [CreatedAt], an instant in nanoseconds. *)
Record stampedEvent : Type := mkStampedEvent {
  CreatedAt : Z;
  event : Event
}.

(** [filterEventsForTime]; [duration] is [*duration], in nanoseconds.
    [After] and [Before] are strict. *)
Fixpoint filterEventsForTime (duration : Z) (unfiltered : list stampedEvent)
    (startTime : Z) : list stampedEvent :=
  let endTime := startTime + duration in
  match unfiltered with
  | [] => []
  | e :: unfiltered' =>
      if (startTime <? CreatedAt e) && (CreatedAt e <? endTime)
      then e :: filterEventsForTime duration unfiltered' startTime
      else filterEventsForTime duration unfiltered' startTime
  end.

(** ** Listing the events *)

(** The outcome of [listEvents]: the events, the [log.Fatalf] on the page
    that could not be listed, or no outcome within the number of
    iterations allowed. *)
Inductive listing : Type :=
  | Listed (events : list Event)
  | UnableToListEvents (page : Z)
  | StillListing.

(** The loop of [listEvents].  [ListPage page] is the reply of
    [client.Activity.ListEventsPerformedByUser] for the page: the events
    and [r.NextPage], or [None] for a non-nil [err].  The loop ends only
    when a reply has no next page, so the model counts the iterations
    down from [fuel]. *)
Fixpoint listEvents_loop (ListPage : Z → option (list Event * Z))
    (fuel : nat) (events : list Event) (page : Z) : listing :=
  match fuel with
  | O => StillListing
  | S fuel' =>
      match ListPage page with
      | None => UnableToListEvents page
      | Some (e, NextPage) =>
          let events := events ++ e in
          let page := NextPage in
          if page =? 0 then Listed events
          else listEvents_loop ListPage fuel' events page
      end
  end.

Definition listEvents (ListPage : Z → option (list Event * Z)) (fuel : nat)
    : listing :=
  listEvents_loop ListPage fuel [] 1.

(** The replies from [page] on are the [batches], one reply each, and only
    the last has no next page. *)
Inductive pagesFrom (ListPage : Z → option (list Event * Z))
    : Z → list (list Event) → Prop :=
  | pagesFrom_last page e :
      ListPage page = Some (e, 0) → pagesFrom ListPage page [e]
  | pagesFrom_next page e NextPage batches :
      ListPage page = Some (e, NextPage) → NextPage ≠ 0 →
      pagesFrom ListPage NextPage batches →
      pagesFrom ListPage page (e :: batches).

(** ** The token *)

(** [readOauthToken]; [file] is what [ioutil.ReadFile] gives for the token
    file, [None] for a non-nil [err], on which the function is fatal. *)
Definition readOauthToken (file : option string) : option string :=
  match file with
  | None => None
  | Some s => Some (Strings.TrimSuffix s newline)
  end.

(** ** The name registry of [eventSets] *)

(** [func (e *eventSets) addName(n nameable)] *)
Definition eventSets_addName {A : Type} `{nameable A}
    (e : eventSets) (n : A) : eventSets :=
  let u := GetHTMLURL n in
  match names e !! u with
  | None =>
      {| names := <[u := formatName n]> (names e);
         merged := merged e; abandoned := abandoned e;
         underReview := underReview e; inProgress := inProgress e;
         reviewed := reviewed e; issues := issues e |}
  | Some _ => e
  end.

(** Two pages of events. *)
Definition twoPages (page : Z) : option (list Event * Z) :=
  if page =? 1 then Some (take 2 Sample.events, 2)
  else if page =? 2 then Some (drop 2 Sample.events, 0)
  else None.

(** ** The earlier variant of the program

    The second source file classifies from the events alone: its
    [organizeEvents] fills the six sets from the action of each event and
    ends with [cleanUp]. *)

Module Legacy.

(** [strings.Contains(s, substr)] *)
Fixpoint Contains (s substr : string) : bool :=
  Strings.HasPrefix s substr ||
  match s with
  | EmptyString => false
  | String _ s' => Contains s' substr
  end.

(** The issue of an event with its [User], which this variant reads. *)
Record Issue : Type := mkIssue {
  issue : github.Issue;
  issue_User : option User
}.

#[global] Instance Issue_nameable : nameable Issue := {|
  GetTitle i := GetTitle (issue i);
  GetHTMLURL i := GetHTMLURL (issue i)
|}.

(** The payloads with what the type switch reads of them; [Action] is
    [e.GetAction()].  Of a creation the switch reads [e.RefType], which the
    platform always sends, and does nothing with it. *)
Inductive Payload : Type :=
  | IssueCommentEvent (i : Issue)
  | IssuesEvent (Action : string) (i : Issue)
  | PullRequestEvent (Action : string) (pr : PullRequest)
  | PullRequestReviewCommentEvent (pr : PullRequest)
  | CommitCommentEvent
  | CreateEvent
  | PushEvent
  | DeleteEvent
  | OtherEvent.

Record Event : Type := mkEvent { ParsePayload : option Payload }.

(** [getURL] *)
Definition getURL {A : Type} `{nameable A} (n : A) : url := GetHTMLURL n.

(** Setting one member in one of the sets. *)
Definition addMerged (e : eventSets) (u : url) : eventSets :=
  {| names := names e; merged := {[u]} ∪ merged e; abandoned := abandoned e;
     underReview := underReview e; inProgress := inProgress e;
     reviewed := reviewed e; issues := issues e |}.
Definition addAbandoned (e : eventSets) (u : url) : eventSets :=
  {| names := names e; merged := merged e; abandoned := {[u]} ∪ abandoned e;
     underReview := underReview e; inProgress := inProgress e;
     reviewed := reviewed e; issues := issues e |}.
Definition addUnderReview (e : eventSets) (u : url) : eventSets :=
  {| names := names e; merged := merged e; abandoned := abandoned e;
     underReview := {[u]} ∪ underReview e; inProgress := inProgress e;
     reviewed := reviewed e; issues := issues e |}.
Definition addInProgress (e : eventSets) (u : url) : eventSets :=
  {| names := names e; merged := merged e; abandoned := abandoned e;
     underReview := underReview e; inProgress := {[u]} ∪ inProgress e;
     reviewed := reviewed e; issues := issues e |}.
Definition addReviewed (e : eventSets) (u : url) : eventSets :=
  {| names := names e; merged := merged e; abandoned := abandoned e;
     underReview := underReview e; inProgress := inProgress e;
     reviewed := {[u]} ∪ reviewed e; issues := issues e |}.
Definition addIssues (e : eventSets) (u : url) : eventSets :=
  {| names := names e; merged := merged e; abandoned := abandoned e;
     underReview := underReview e; inProgress := inProgress e;
     reviewed := reviewed e; issues := {[u]} ∪ issues e |}.

(** [delete(e.underReview, pr)] and [delete(e.inProgress, pr)] *)
Definition deleteUnderReview (e : eventSets) (pr : url) : eventSets :=
  {| names := names e; merged := merged e; abandoned := abandoned e;
     underReview := underReview e ∖ {[pr]}; inProgress := inProgress e;
     reviewed := reviewed e; issues := issues e |}.
Definition deleteInProgress (e : eventSets) (pr : url) : eventSets :=
  {| names := names e; merged := merged e; abandoned := abandoned e;
     underReview := underReview e; inProgress := inProgress e ∖ {[pr]};
     reviewed := reviewed e; issues := issues e |}.

(** [cleanUp]: its three loops, each over the members of a set that the
    loop does not change. *)
Definition cleanUp (e : eventSets) : eventSets :=
  let e :=
    foldl (λ e pr, deleteInProgress (deleteUnderReview e pr) pr) e
      (elements (merged e)) in
  let e :=
    foldl (λ e pr, deleteInProgress (deleteUnderReview e pr) pr) e
      (elements (abandoned e)) in
  foldl deleteInProgress e (elements (underReview e)).

Section Discovery.

Variable user : string.

(** The body of the type switch. *)
Definition routeEvent (sets : eventSets) (event : Payload) : eventSets :=
  match event with
  | IssueCommentEvent i =>
      let sets := eventSets_addName sets i in
      if IsPullRequest (issue i) then
        if decide (GetLogin (issue_User i) = user)
        then addUnderReview sets (getURL i)
        else addReviewed sets (getURL i)
      else addIssues sets (getURL i)
  | IssuesEvent _ i =>
      let sets := eventSets_addName sets i in
      if IsPullRequest (issue i) then addReviewed sets (getURL i)
      else addIssues sets (getURL i)
  | PullRequestEvent Action pr =>
      let sets := eventSets_addName sets pr in
      if decide (Action = "opened") then
        if Contains (GetTitle pr) "WIP"
        then addInProgress sets (getURL pr)
        else addUnderReview sets (getURL pr)
      else if decide (Action = "edited") then
        addInProgress sets (getURL pr)
      else if decide (Action = "closed") then
        if GetMerged pr then addMerged sets (getURL pr)
        else addAbandoned sets (getURL pr)
      else if decide (Action = "reopened") then
        addInProgress sets (getURL pr)
      else sets
  | PullRequestReviewCommentEvent pr =>
      let sets := eventSets_addName sets pr in
      if decide (GetLogin (GetUser pr) = user)
      then addUnderReview sets (getURL pr)
      else addReviewed sets (getURL pr)
  | CommitCommentEvent | CreateEvent | PushEvent | DeleteEvent
  | OtherEvent => sets
  end.

Fixpoint parsePayloads (events : list Event) : result (list Payload) :=
  match events with
  | [] => Ok []
  | event :: events' =>
      match ParsePayload event with
      | None => Fatal UnableToParseEvent
      | Some p => parsed ←! parsePayloads events' ;; Ok (p :: parsed)
      end
  end.

Definition organizeEvents (events : list Event) : result eventSets :=
  parsed ←! parsePayloads events ;;
  let sets :=
    {| names := ∅; merged := ∅; abandoned := ∅; underReview := ∅;
       inProgress := ∅; reviewed := ∅; issues := ∅ |} in
  let sets := foldl routeEvent sets parsed in
  Ok (cleanUp sets).

End Discovery.

(** Every member of the six sets has a name. *)
Definition allNamed (e : eventSets) : Prop :=
  ∀ u, u ∈ ⋃ (sixSets e) → is_Some (names e !! u).

(** A pull request that was opened, closed without merging, reopened and
    merged. *)
Definition reopened : list Event :=
  [ {| ParsePayload :=
         Some (PullRequestEvent "closed"
                 (Sample.pull "Add broker" Sample.url1 Sample.me "closed"
                    true [])) |};
    {| ParsePayload :=
         Some (PullRequestEvent "reopened"
                 (Sample.pull "Add broker" Sample.url1 Sample.me "open"
                    false [])) |};
    {| ParsePayload :=
         Some (PullRequestEvent "closed"
                 (Sample.pull "Add broker" Sample.url1 Sample.me "closed"
                    false [])) |};
    {| ParsePayload :=
         Some (PullRequestEvent "opened"
                 (Sample.pull "WIP Add broker" Sample.url1 Sample.me "open"
                    false [])) |} ].

Definition reopenedSets : eventSets :=
  {| names :=
       {[ Sample.url1
            := "[Add broker](https://github.com/knative/eventing/pull/1)" ]};
     merged := {[ Sample.url1 ]}; abandoned := {[ Sample.url1 ]};
     underReview := ∅; inProgress := ∅; reviewed := ∅; issues := ∅ |}.

End Legacy.

(** * Properties *)

(** ** Strings *)

Lemma ascii_eqb_decide (a b : ascii) : Ascii.eqb a b = bool_decide (a = b).
Proof.
  destruct (Ascii.eqb_spec a b) as [->|Hne].
  - by rewrite bool_decide_eq_true_2.
  - by rewrite bool_decide_eq_false_2.
Qed.

Lemma app_String (c : ascii) (s t : string) :
  String c s +:+ t = String c (s +:+ t).
Proof. reflexivity. Qed.

Lemma app_empty_l (t : string) : "" +:+ t = t.
Proof. reflexivity. Qed.

Lemma app_assoc_s (s t v : string) : (s +:+ t) +:+ v = s +:+ t +:+ v.
Proof.
  induction s as [|c s IH]; [done|].
  rewrite !app_String. by rewrite IH.
Qed.

Lemma app_empty_r (s : string) : s +:+ "" = s.
Proof.
  induction s as [|c s IH]; [done|].
  rewrite app_String. by rewrite IH.
Qed.

Lemma HasPrefix_app (p rest : string) : Strings.HasPrefix (p +:+ rest) p = true.
Proof.
  induction p as [|c p IH]; [done|].
  rewrite app_String. cbn. by rewrite Ascii.eqb_refl, IH.
Qed.

Lemma drop_app (p rest : string) :
  Strings.drop (String.length p) (p +:+ rest) = rest.
Proof. induction p as [|c p IH]; [done|]. exact IH. Qed.

Lemma HasPrefix_inv (s p : string) :
  Strings.HasPrefix s p = true → s = p +:+ Strings.drop (String.length p) s.
Proof.
  revert s. induction p as [|c p IH]; intros s Hs; [done|].
  destruct s as [|a s]; [discriminate Hs|].
  cbn in Hs. apply andb_prop in Hs as [Ha Hs].
  apply Ascii.eqb_eq in Ha as ->. rewrite app_String. cbn. f_equal. by apply IH.
Qed.

Lemma TrimPrefix_app (p rest : string) :
  Strings.TrimPrefix (p +:+ rest) p = rest.
Proof.
  unfold Strings.TrimPrefix. by rewrite HasPrefix_app, drop_app.
Qed.

Lemma Split_nonempty (s : string) (sep : ascii) : Strings.Split s sep ≠ [].
Proof.
  induction s as [|c s IH]; [done|].
  cbn. destruct (Ascii.eqb c sep); [done|].
  by destruct (Strings.Split s sep).
Qed.

Lemma Split_free (s : string) (sep : ascii) :
  Strings.free_of sep s = true → Strings.Split s sep = [s].
Proof.
  induction s as [|c s IH]; [done|].
  cbn. intros [Hc Hs]%andb_prop.
  apply negb_true_iff in Hc. rewrite Hc, (IH Hs). done.
Qed.

Lemma Split_app_sep (a b : string) (sep : ascii) :
  Strings.free_of sep a = true →
  Strings.Split (a +:+ String sep b) sep = a :: Strings.Split b sep.
Proof.
  induction a as [|c a IH].
  - intros _. rewrite app_empty_l. cbn. by rewrite Ascii.eqb_refl.
  - cbn. intros [Hc Ha]%andb_prop.
    apply negb_true_iff in Hc.
    rewrite app_String. cbn. rewrite Hc, (IH Ha). done.
Qed.

Lemma Split_app_sep' (a b : string) (sep : ascii) :
  Strings.free_of sep a = true →
  Strings.Split (a +:+ String sep "" +:+ b) sep = a :: Strings.Split b sep.
Proof. apply Split_app_sep. Qed.

Lemma Replace_app (s t : string) (old : ascii) (new : string) :
  Strings.Replace (s +:+ t) old new
  = Strings.Replace s old new +:+ Strings.Replace t old new.
Proof.
  induction s as [|c s IH]; [done|].
  rewrite app_String. cbn. rewrite IH. destruct (Ascii.eqb c old); [|done].
  by rewrite app_assoc_s.
Qed.

Lemma Replace_free (s : string) (old : ascii) (new : string) :
  Strings.free_of old s = true → Strings.Replace s old new = s.
Proof.
  induction s as [|c s IH]; [done|].
  cbn. intros [Hc Hs]%andb_prop.
  apply negb_true_iff in Hc. by rewrite Hc, (IH Hs).
Qed.

(** ** [strconv.Atoi] *)

Lemma digit_not_slash (c : ascii) (d : Z) :
  Strconv.digit c = Some d → Ascii.eqb c "/" = false.
Proof.
  intros Hd. destruct (Ascii.eqb_spec c "/") as [->|Hne]; [|done].
  vm_compute in Hd. discriminate Hd.
Qed.

Lemma digits_free_of_slash (s : string) (n v : Z) :
  Strconv.digits s n = Some v → Strings.free_of "/" s = true.
Proof.
  revert n. induction s as [|c s IH]; intros n; [done|].
  cbn. destruct (Strconv.digit c) as [d|] eqn:Hd; [|done].
  intros Hv. rewrite (digit_not_slash _ _ Hd). cbn. by eapply IH.
Qed.

Lemma Atoi_free_of_slash (s : string) (v : Z) :
  Strconv.Atoi s = Some v → Strings.free_of "/" s = true.
Proof.
  unfold Strconv.Atoi. destruct s as [|s0 rest]; [done|].
  destruct (Ascii.eqb_spec s0 "-") as [->|Hminus]; cbn [orb].
  - destruct rest as [|c rest]; [done|].
    destruct (Strconv.digits (String c rest) 0) as [n|] eqn:Hn; [|done].
    intros _. apply digits_free_of_slash in Hn.
    cbn -[Strings.free_of]. exact Hn.
  - destruct (Ascii.eqb_spec s0 "+") as [->|Hplus].
    + destruct rest as [|c rest]; [done|].
      destruct (Strconv.digits (String c rest) 0) as [n|] eqn:Hn; [|done].
      intros _. apply digits_free_of_slash in Hn. exact Hn.
    + destruct (Strconv.digits (String s0 rest) 0) as [n|] eqn:Hn; [|done].
      intros _. by apply digits_free_of_slash in Hn.
Qed.

Lemma digit_Some_iff (c : ascii) (d : Z) :
  Strconv.digit c = Some d
  ↔ ((48 <=? N_of_ascii c)%N && (N_of_ascii c <=? 57)%N = true) ∧
    d = Z.of_N (N_of_ascii c) - 48.
Proof.
  unfold Strconv.digit. rewrite andb_true_iff, N.leb_le, N.leb_le.
  destruct (0 <=? Z.of_N (N_of_ascii c) - 48) eqn:Hlo;
    destruct (Z.of_N (N_of_ascii c) - 48 <=? 9) eqn:Hhi; cbn;
    rewrite ?Z.leb_le, ?Z.leb_gt in Hlo, Hhi;
    (split; [intros [= <-]|intros [? ->]]); try split; try done; lia.
Qed.

Lemma digits_Some_iff (s : string) (n v : Z) :
  Strconv.digits s n = Some v
  ↔ Strconv.allDigits s = true ∧ v = Strconv.decimalValue s n.
Proof.
  revert n. induction s as [|c s IH]; intros n; cbn.
  - split; [by intros [= <-]|by intros [_ ->]].
  - destruct (Strconv.digit c) as [d|] eqn:Hd.
    + apply digit_Some_iff in Hd as [-> ->]. cbn. apply IH.
    + split; [done|]. intros [[Hc _]%andb_prop _].
      assert (Strconv.digit c = Some (Z.of_N (N_of_ascii c) - 48)) as Hd'
        by by apply digit_Some_iff.
      congruence.
Qed.

(** [Atoi] accepts an optional sign followed by at least one decimal digit
    and nothing else, when the number denoted fits [int]. *)
Lemma Atoi_Some_iff (s : string) (v : Z) :
  Strconv.Atoi s = Some v
  ↔ ∃ sign body,
      s = sign +:+ body ∧ (sign = "" ∨ sign = "+" ∨ sign = "-") ∧
      body ≠ "" ∧ Strconv.allDigits body = true ∧
      v = (if decide (sign = "-") then - Strconv.decimalValue body 0
           else Strconv.decimalValue body 0) ∧
      Strconv.minInt ≤ v ≤ Strconv.maxInt.
Proof.
  assert (∀ body n,
    match Strconv.digits body 0 with
    | Some n0 =>
        if (Strconv.minInt <=? n n0) && (n n0 <=? Strconv.maxInt)
        then Some (n n0) else None
    | None => None
    end = Some v
    ↔ Strconv.allDigits body = true ∧ v = n (Strconv.decimalValue body 0) ∧
      Strconv.minInt ≤ v ≤ Strconv.maxInt) as Hbody.
  { intros body n.
    destruct (Strconv.digits body 0) as [n0|] eqn:Hn0.
    - apply digits_Some_iff in Hn0 as [-> ->].
      destruct (_ && _) eqn:Hr.
      + apply andb_prop in Hr as [?%Z.leb_le ?%Z.leb_le].
        split; [intros [= <-]; repeat split; lia|by intros (_ & -> & _)].
      + split; [done|]. intros (_ & -> & Hv).
        apply andb_false_iff in Hr as [?%Z.leb_gt|?%Z.leb_gt]; lia.
    - split; [done|]. intros (Hd & _).
      assert (Strconv.digits body 0 = Some (Strconv.decimalValue body 0))
        by by apply digits_Some_iff.
      congruence. }
  assert (∀ s' sign body (P : Prop),
    s' = sign +:+ body → sign = "" ∨ sign = "+" ∨ sign = "-" →
    Strconv.allDigits body = true → body ≠ "" →
    (sign = "" → body = s' → P) →
    (∀ rest, sign = "+" → s' = String "+" rest → body = rest → P) →
    (∀ rest, sign = "-" → s' = String "-" rest → body = rest → P) → P)
    as Hsigns.
  { intros s' sign body P -> [->|[->| ->]] Hd Hne H0 Hplus Hminus.
    - by apply H0.
    - by eapply Hplus.
    - by eapply Hminus. }
  assert (∀ sign body,
    sign = "" ∨ sign = "+" ∨ sign = "-" →
    Strconv.allDigits body = true → body ≠ "" →
    Strconv.minInt
    ≤ (if decide (sign = "-") then - Strconv.decimalValue body 0
       else Strconv.decimalValue body 0) ≤ Strconv.maxInt →
    ∃ sign' body',
      sign +:+ body = sign' +:+ body' ∧
      (sign' = "" ∨ sign' = "+" ∨ sign' = "-") ∧
      body' ≠ "" ∧ Strconv.allDigits body' = true ∧
      (if decide (sign = "-") then - Strconv.decimalValue body 0
       else Strconv.decimalValue body 0)
      = (if decide (sign' = "-") then - Strconv.decimalValue body' 0
         else Strconv.decimalValue body' 0) ∧
      Strconv.minInt
      ≤ (if decide (sign = "-") then - Strconv.decimalValue body 0
         else Strconv.decimalValue body 0) ≤ Strconv.maxInt) as Hex.
  { intros sign body Hsign Hd Hne Hr. by exists sign, body. }
  unfold Strconv.Atoi. destruct s as [|s0 rest].
  { split; [done|]. intros (sign & body & Hs & _ & Hne & _).
    destruct sign; [by destruct body|done]. }
  destruct (Ascii.eqb_spec s0 "-") as [->|Hminus]; cbn [orb].
  - destruct rest as [|c rest].
    + split; [done|]. intros (sign & body & Hs & Hsign & Hne & Hd & _).
      apply (Hsigns _ _ _ _ Hs Hsign Hd Hne).
      * intros _ ->. by vm_compute in Hd.
      * by intros rest' _ [=].
      * intros rest' _ [= <-] ->. done.
    + rewrite (Hbody _ Z.opp). split.
      * intros (Hd & -> & Hr).
        apply (Hex "-" (String c rest)); [by right; right|done..].
      * intros (sign & body & Hs & Hsign & Hne & Hd & Hv & Hr).
        apply (Hsigns _ _ _ _ Hs Hsign Hd Hne).
        -- intros _ ->. by vm_compute in Hd.
        -- by intros rest' _ [=].
        -- intros rest' -> [= <-] ->. by rewrite decide_True in Hv.
  - destruct (Ascii.eqb_spec s0 "+") as [->|Hplus].
    + destruct rest as [|c rest].
      * split; [done|]. intros (sign & body & Hs & Hsign & Hne & Hd & _).
        apply (Hsigns _ _ _ _ Hs Hsign Hd Hne).
        -- intros _ ->. by vm_compute in Hd.
        -- intros rest' _ [= <-] ->. done.
        -- by intros rest' _ [=].
      * rewrite (Hbody _ id). split.
        -- intros (Hd & -> & Hr).
           apply (Hex "+" (String c rest)); [by right; left|done..].
        -- intros (sign & body & Hs & Hsign & Hne & Hd & Hv & Hr).
           apply (Hsigns _ _ _ _ Hs Hsign Hd Hne).
           ++ intros _ ->. by vm_compute in Hd.
           ++ intros rest' -> [= <-] ->. by rewrite decide_False in Hv.
           ++ by intros rest' _ [=].
    + rewrite (Hbody _ id). split.
      * intros (Hd & -> & Hr).
        apply (Hex "" (String s0 rest)); [by left|done..].
      * intros (sign & body & Hs & Hsign & Hne & Hd & Hv & Hr).
        apply (Hsigns _ _ _ _ Hs Hsign Hd Hne).
        -- intros -> ->. by rewrite decide_False in Hv.
        -- intros rest' _ [= -> _]. done.
        -- intros rest' _ [= -> _]. done.
Qed.

Lemma Atoi_range (s : string) (v : Z) :
  Strconv.Atoi s = Some v → Strconv.minInt ≤ v ≤ Strconv.maxInt.
Proof.
  unfold Strconv.Atoi. destruct s as [|s0 rest]; [done|].
  destruct (if _ : bool then rest else _) as [|c body]; [done|].
  destruct (Strconv.digits _ 0) as [n|]; [|done].
  destruct (_ && _) eqn:Hr; [|done].
  intros [= <-]. apply andb_prop in Hr as [?%Z.leb_le ?%Z.leb_le]. lia.
Qed.

(** ** Pull-request URL decomposition *)

Lemma crackPRInfo_app (rest o r k n : string) (tl : list string) :
  Strings.Split rest "/" = o :: r :: k :: n :: tl →
  crackPRInfo (webRoot +:+ rest)
  = match Strconv.Atoi n with
    | Some v => Ok {| owner := o; repo := r; number := v |}
    | None => Fatal (UnableToParseFourthSplit rest)
    end.
Proof.
  intros Hsplit. unfold crackPRInfo.
  rewrite HasPrefix_app, TrimPrefix_app, Hsplit. reflexivity.
Qed.

Lemma crackPRInfo_Ok_decomposes (u : string) (info : prInfo) :
  crackPRInfo u = Ok info ↔ decomposes u info.
Proof.
  split.
  - unfold crackPRInfo.
    destruct (Strings.HasPrefix u webRoot) eqn:Hp; [|done].
    cbn [negb]. unfold Strings.TrimPrefix. rewrite Hp.
    apply HasPrefix_inv in Hp.
    set (rest := Strings.drop (String.length webRoot) u) in *.
    destruct (Strings.Split rest "/") as [|o [|r [|k [|n tl]]]] eqn:Hs; try done.
    cbn. destruct (Strconv.Atoi n) as [v|] eqn:Hv; [|done].
    intros [= <-]. by exists rest, o, r, k, n, tl, v.
  - intros (rest & o & r & k & n & tl & v & -> & Hs & Hv & ->).
    by rewrite (crackPRInfo_app _ _ _ _ _ _ Hs), Hv.
Qed.

(** C6, as the code has it: decomposition succeeds exactly when the
    identifier is the web root followed by at least four [/]-delimited
    segments of which [strconv.Atoi] accepts the fourth (an optional sign
    and decimal digits within [int]: zero and negative numbers pass), it
    then returns the first and second segment and the parsed number, and it
    is fatal in every other case; [https://github.com/ownerX/repoY/pull/42]
    gives owner [ownerX], repository [repoY] and number 42. *)
Theorem crackPRInfo_decomposition :
  (∀ u info, crackPRInfo u = Ok info ↔ decomposes u info) ∧
  (∀ u, (¬ ∃ info, decomposes u info) ↔ ∃ e, crackPRInfo u = Fatal e) ∧
  crackPRInfo "https://github.com/ownerX/repoY/pull/42"
  = Ok {| owner := "ownerX"; repo := "repoY"; number := 42 |}.
Proof.
  split; [exact crackPRInfo_Ok_decomposes|]. split; [|by vm_compute].
  intros u. split.
  - intros Hno. destruct (crackPRInfo u) as [info|e] eqn:Hc; [|by exists e].
    destruct Hno. exists info. by apply crackPRInfo_Ok_decomposes.
  - intros [e He] [info Hinfo%crackPRInfo_Ok_decomposes]. congruence.
Qed.

(** C6 as stated fails: the fourth segment [0] (or [-7]) is no positive
    integer, and decomposition succeeds on it. *)
Lemma crackPRInfo_accepts_nonpositive :
  crackPRInfo "https://github.com/ownerX/repoY/pull/0"
  = Ok {| owner := "ownerX"; repo := "repoY"; number := 0 |} ∧
  spec_crackPRInfo "https://github.com/ownerX/repoY/pull/0" = None ∧
  crackPRInfo "https://github.com/ownerX/repoY/pull/-7"
  = Ok {| owner := "ownerX"; repo := "repoY"; number := -7 |} ∧
  spec_crackPRInfo "https://github.com/ownerX/repoY/pull/-7" = None.
Proof. by vm_compute. Qed.

(** C10: with the web root in front, three [/]-free segments and a fourth
    that [strconv.Atoi] accepts, decomposition succeeds with the first
    segment, the second and the parsed number, whatever the third segment
    [k] is and whatever follows the fourth. *)
Theorem crackPRInfo_ignores_kind_and_tail
    (o r k n trailing : string) (v : Z) :
  Strings.free_of "/" o = true →
  Strings.free_of "/" r = true →
  Strings.free_of "/" k = true →
  Strconv.Atoi n = Some v →
  trailing = "" ∨ (∃ t, trailing = "/" +:+ t) →
  crackPRInfo (webRoot +:+ o +:+ "/" +:+ r +:+ "/" +:+ k +:+ "/" +:+ n
               +:+ trailing)
  = Ok {| owner := o; repo := r; number := v |}.
Proof.
  intros Ho Hr Hk Hv Htl.
  pose proof (Atoi_free_of_slash _ _ Hv) as Hn.
  assert (∃ tl, Strings.Split (o +:+ "/" +:+ r +:+ "/" +:+ k +:+ "/" +:+ n
                               +:+ trailing) "/" = o :: r :: k :: n :: tl)
    as [tl Hs].
  { rewrite !Split_app_sep' by done.
    destruct Htl as [->|[t ->]].
    - exists []. by rewrite app_empty_r, Split_free.
    - exists (Strings.Split t "/"). by rewrite Split_app_sep'. }
  by rewrite (crackPRInfo_app _ _ _ _ _ _ Hs), Hv.
Qed.

Lemma crackPRInfo_ignores_kind_and_tail_witness :
  crackPRInfo (webRoot +:+ "ownerX" +:+ "/" +:+ "repoY" +:+ "/" +:+ "issues"
               +:+ "/" +:+ "42" +:+ "/files/extra")
  = Ok {| owner := "ownerX"; repo := "repoY"; number := 42 |}.
Proof.
  apply (crackPRInfo_ignores_kind_and_tail
           "ownerX" "repoY" "issues" "42" "/files/extra" 42).
  - reflexivity.
  - reflexivity.
  - reflexivity.
  - reflexivity.
  - right. exists "files/extra". reflexivity.
Defined.

(** ** The name registry and discovery *)

Lemma addName_fst_names {A : Type} `{nameable A} (e : issuesAndPRs) (n : A) :
  ge_names (addName e n).1
  = match ge_names e !! GetHTMLURL n with
    | Some _ => ge_names e
    | None => <[GetHTMLURL n := formatName n]> (ge_names e)
    end.
Proof. unfold addName. by destruct (ge_names e !! GetHTMLURL n). Qed.

Lemma addName_snd {A : Type} `{nameable A} (e : issuesAndPRs) (n : A) :
  (addName e n).2 = GetHTMLURL n.
Proof. unfold addName. by destruct (ge_names e !! GetHTMLURL n). Qed.

Lemma addName_present {A : Type} `{nameable A} (e : issuesAndPRs) (n : A) :
  is_Some (ge_names e !! GetHTMLURL n) → addName e n = (e, GetHTMLURL n).
Proof. intros [name Hname]. unfold addName. by rewrite Hname. Qed.

Lemma addIssue_names (e e' : issuesAndPRs) (i : Issue) :
  addIssue e i = Ok e' → ge_names e' = ge_names (addName e i).1.
Proof.
  unfold addIssue. destruct (addName e i) as [e1 u].
  destruct (IsPullRequest i).
  - destruct (crackPRInfo (GetHTMLURL i)); cbn; [|done]. by intros [= <-].
  - destruct (ge_issues e1 !! u); by intros [= <-].
Qed.

Lemma addPR_names (e e' : issuesAndPRs) (pr : PullRequest) :
  addPR e pr = Ok e' → ge_names e' = ge_names (addName e pr).1.
Proof.
  unfold addPR. destruct (addName e pr) as [e1 u].
  destruct (ge_prs e1 !! u); [by intros [= <-]|].
  destruct (crackPRInfo (GetHTMLURL pr)); cbn; [|done]. by intros [= <-].
Qed.

Lemma addIssue_is_Ok (e : issuesAndPRs) (i : Issue) :
  (IsPullRequest i = true → is_Ok (crackPRInfo (GetHTMLURL i))) →
  is_Ok (addIssue e i).
Proof.
  intros Hc. unfold addIssue. destruct (addName e i) as [e1 u].
  destruct (IsPullRequest i).
  - destruct (Hc eq_refl) as [info ->]. cbn. by eexists.
  - destruct (ge_issues e1 !! u); by eexists.
Qed.

Lemma addPR_is_Ok (e : issuesAndPRs) (pr : PullRequest) :
  is_Ok (crackPRInfo (GetHTMLURL pr)) → is_Ok (addPR e pr).
Proof.
  intros [info Hc]. unfold addPR. destruct (addName e pr) as [e1 u].
  destruct (ge_prs e1 !! u); [by eexists|].
  rewrite Hc. cbn. by eexists.
Qed.

Lemma routeEvent_is_Ok (ge : issuesAndPRs) (p : Payload) :
  cracks p → is_Ok (routeEvent ge p).
Proof.
  unfold cracks.
  destruct p as [i|i|pr|pr| | | | |]; cbn; intros Hc;
    try (by eexists); try (by apply addPR_is_Ok);
    apply addIssue_is_Ok; intros Hi; by rewrite Hi in Hc.
Qed.

(** What routing one payload does to the registry: the label of its item is
    stored unless the identifier has one. *)
Lemma routeEvent_names (ge ge' : issuesAndPRs) (p : Payload) (u : url) :
  routeEvent ge p = Ok ge' →
  ge_names ge' !! u
  = match ge_names ge !! u with
    | Some name => Some name
    | None => firstSeen [p] u
    end.
Proof.
  assert (∀ (A : Type) (HA : nameable A) (n : A),
    ge_names (addName ge n).1 !! u
    = match ge_names ge !! u with
      | Some name => Some name
      | None => if decide (GetHTMLURL n = u) then Some (formatName n) else None
      end) as Hadd.
  { intros A HA n. rewrite addName_fst_names.
    destruct (decide (GetHTMLURL n = u)) as [->|Hne].
    - destruct (ge_names ge !! u) eqn:Hu; [done|].
      by rewrite lookup_insert_eq.
    - destruct (ge_names ge !! GetHTMLURL n).
      + by destruct (ge_names ge !! u).
      + rewrite lookup_insert_ne by done. by destruct (ge_names ge !! u). }
  destruct p as [i|i|pr|pr| | | | |]; cbn.
  1,2: intros ->%addIssue_names; rewrite Hadd;
    destruct (ge_names ge !! u); reflexivity.
  1,2: intros ->%addPR_names; rewrite Hadd;
    destruct (ge_names ge !! u); reflexivity.
  all: intros [= <-]; by destruct (ge_names ge !! u).
Qed.

Lemma routeEvents_names (parsed : list Payload) (ge ge' : issuesAndPRs)
    (u : url) :
  routeEvents ge parsed = Ok ge' →
  ge_names ge' !! u
  = match ge_names ge !! u with
    | Some name => Some name
    | None => firstSeen parsed u
    end.
Proof.
  revert ge. induction parsed as [|p parsed IH]; intros ge; cbn.
  - intros [= <-]. by destruct (ge_names ge !! u).
  - destruct (routeEvent ge p) as [ge1|] eqn:Hp; cbn; [|done].
    intros Hrest. rewrite (IH _ Hrest), (routeEvent_names _ _ _ u Hp).
    destruct (ge_names ge !! u); [done|]. cbn.
    destruct (payloadItem p) as [[u' name]|]; [|done].
    by case_decide.
Qed.

Lemma routeEvents_is_Ok (parsed : list Payload) (ge : issuesAndPRs) :
  Forall cracks parsed → is_Ok (routeEvents ge parsed).
Proof.
  intros Hall. revert ge.
  induction Hall as [|p parsed Hp _ IH]; intros ge; cbn; [by eexists|].
  destruct (routeEvent_is_Ok ge p Hp) as [ge1 ->]. cbn. apply IH.
Qed.

(** C5: when every payload parses and every pull-request identifier
    decomposes, discovery completes and the registry holds, for every
    identifier, the label formatted from the first payload of the sequence
    that refers to it (none if no payload does), whatever later payloads
    for the same identifier carry; and [addName] changes nothing when the
    identifier has a name. *)
Theorem organizeEvents_first_name_wins
    (events : list Event) (parsed : list Payload) :
  parsePayloads events = Ok parsed →
  Forall cracks parsed →
  (∃ ge, organizeEvents events = Ok ge ∧
         ∀ u, ge_names ge !! u = firstSeen parsed u) ∧
  (∀ (A : Type) (HA : nameable A) (e : issuesAndPRs) (n : A),
     is_Some (ge_names e !! GetHTMLURL n) → addName e n = (e, GetHTMLURL n)).
Proof.
  intros Hparse Hall. split.
  - unfold organizeEvents. rewrite Hparse. cbn.
    destruct (routeEvents_is_Ok parsed
                {| ge_names := ∅; ge_issues := ∅; ge_prs := ∅ |} Hall)
      as [ge Hge].
    exists ge. split; [done|]. intros u.
    rewrite (routeEvents_names _ _ _ u Hge). cbn. by rewrite lookup_empty.
  - intros A HA e n. apply addName_present.
Qed.

Lemma organizeEvents_first_name_wins_witness :
  ∃ ge, organizeEvents Sample.events = Ok ge ∧
        ge_names ge !! Sample.url1
        = Some "[Add broker](https://github.com/knative/eventing/pull/1)".
Proof.
  destruct (organizeEvents_first_name_wins Sample.events Sample.parsed)
    as [(ge & Hge & Hnames) _].
  - reflexivity.
  - repeat (apply Forall_cons; split;
            [first [exact I | eexists; vm_compute; reflexivity]|]).
    apply Forall_nil. exact I.
  - exists ge. split; [exact Hge|]. rewrite Hnames. reflexivity.
Defined.

Example organizeEvents_sample :
  organizeEvents Sample.events = Ok Sample.ge.
Proof. by vm_compute. Qed.

(** ** Reconciliation *)

Ltac break_ifs :=
  repeat match goal with
         | |- context [decide ?P] => destruct (decide P)
         | |- context [if ?b then _ else _] => destruct b
         end.

Lemma isWorkInProgress_spec (labels : list Label) :
  isWorkInProgress labels = true ↔ ∃ l, l ∈ labels ∧ GetName l = wipLabel.
Proof.
  induction labels as [|l labels IH]; cbn.
  - split; [done|]. intros (l & Hl & _). by apply elem_of_nil in Hl.
  - case_decide as Hl.
    + split; [|done]. intros _. exists l. split; [left|done].
    + rewrite IH. split.
      * intros (l' & Hin & Hname). exists l'. split; [by right|done].
      * intros (l' & Hin & Hname). apply elem_of_cons in Hin as [->|Hin];
          [done|by exists l'].
Qed.

Section ReconciliationFacts.

Variable user : string.
Variable PullRequests_Get : string → string → Z → option PullRequest.

Lemma classify_category (es : eventSets) (u u' : url) (pr : PullRequest)
    (c : category) :
  u' ∈ categorySet c (classify user es (u, pr))
  ↔ u' ∈ categorySet c es ∨ (u' = u ∧ spec_category user pr = Some c).
Proof.
  unfold classify, spec_category.
  break_ifs; try done; destruct c; cbn; set_solver.
Qed.

Lemma classify_issues (es : eventSets) (kv : url * PullRequest) :
  issues (classify user es kv) = issues es.
Proof.
  destruct kv as [u pr]. unfold classify. by break_ifs.
Qed.

Lemma foldl_classify_category (l : list (url * PullRequest)) (es : eventSets)
    (u : url) (c : category) :
  u ∈ categorySet c (foldl (classify user) es l)
  ↔ u ∈ categorySet c es ∨ ∃ pr, (u, pr) ∈ l ∧ spec_category user pr = Some c.
Proof.
  revert es. induction l as [|[u0 pr0] l IH]; intros es; cbn [foldl].
  - split; [by left|]. intros [?|(pr & Hin & _)]; [done|].
    by apply elem_of_nil in Hin.
  - rewrite IH, classify_category. split.
    + intros [[?|[-> Hc]]|(pr & Hin & Hc)].
      * by left.
      * right. exists pr0. split; [left|done].
      * right. exists pr. split; [by right|done].
    + intros [?|(pr & Hin & Hc)]; [by left; left|].
      apply elem_of_cons in Hin as [[= -> ->]|Hin].
      * left. by right.
      * right. by exists pr.
Qed.

(** The order in which the loop visits the fetched pull requests does not
    matter. *)
Lemma foldl_classify_Permutation (l l' : list (url * PullRequest))
    (es : eventSets) (c : category) :
  l ≡ₚ l' →
  categorySet c (foldl (classify user) es l)
  = categorySet c (foldl (classify user) es l').
Proof.
  intros Hperm. apply set_eq. intros u.
  rewrite !foldl_classify_category.
  by setoid_rewrite Hperm.
Qed.

Lemma foldl_classify_issues (l : list (url * PullRequest)) (es : eventSets) :
  issues (foldl (classify user) es l) = issues es.
Proof.
  revert es. induction l as [|kv l IH]; intros es; cbn [foldl]; [done|].
  by rewrite IH, classify_issues.
Qed.

Lemma foldl_addIssueURL_category (l : list (url * Issue)) (es : eventSets)
    (c : category) :
  categorySet c (foldl addIssueURL es l) = categorySet c es.
Proof.
  revert es. induction l as [|kv l IH]; intros es; cbn; [done|].
  rewrite IH. by destruct c.
Qed.

Lemma foldl_addIssueURL_issues (l : list (url * Issue)) (es : eventSets)
    (u : url) :
  u ∈ issues (foldl addIssueURL es l) ↔ u ∈ issues es ∨ u ∈ l.*1.
Proof.
  revert es. induction l as [|kv l IH]; intros es; cbn.
  - set_solver.
  - rewrite IH. cbn. set_solver.
Qed.

(** The loop of [getPRs] over an enumeration without repeated keys. *)
Lemma getPRs_loop_spec (l : list (url * prInfo))
    (newPRs newPRs' : gmap string PullRequest) (e e' : issuesAndPRs) :
  NoDup l.*1 →
  getPRs_loop PullRequests_Get (newPRs, e) l = Ok (newPRs', e') →
  ge_issues e' = ge_issues e ∧ ge_prs e' = ge_prs e ∧
  ∀ u,
    (∀ info, (u, info) ∈ l →
       ∃ pr, fetch PullRequests_Get info = Some pr ∧
             newPRs' !! u = Some pr ∧
             ge_names e' !! u = Some (formatName pr)) ∧
    (u ∉ l.*1 →
       newPRs' !! u = newPRs !! u ∧ ge_names e' !! u = ge_names e !! u).
Proof.
  revert newPRs e. induction l as [|[u0 info0] l IH]; intros newPRs e Hnd.
  - cbn. intros [= <- <-]. split; [done|]. split; [done|].
    intros u. split; [|done]. intros info Hin. by apply elem_of_nil in Hin.
  - cbn in Hnd. apply NoDup_cons in Hnd as [Hu0 Hnd].
    cbn. unfold fetch.
    destruct (PullRequests_Get (owner info0) (repo info0) (number info0))
      as [pr0|] eqn:Hget; cbn; [|done].
    intros Hloop. destruct (IH _ _ Hnd Hloop) as (Hi & Hp & Hu).
    split; [done|]. split; [done|]. intros u. split.
    + intros info Hin. apply elem_of_cons in Hin as [[= -> ->]|Hin].
      * exists pr0. destruct (Hu u0) as [_ Hout].
        destruct (Hout Hu0) as [-> ->]. cbn.
        by rewrite !lookup_insert_eq.
      * by apply (Hu u).
    + intros Hnot. apply not_elem_of_cons in Hnot as [Hne Hnot].
      destruct (Hu u) as [_ Hout]. destruct (Hout Hnot) as [-> ->]. cbn.
      by rewrite !lookup_insert_ne.
Qed.

Lemma getPRs_loop_is_Ok (l : list (url * prInfo))
    (st : gmap string PullRequest * issuesAndPRs) :
  (∀ kv, kv ∈ l → is_Some (fetch PullRequests_Get kv.2)) →
  is_Ok (getPRs_loop PullRequests_Get st l).
Proof.
  revert st. induction l as [|[u0 info0] l IH]; intros [newPRs e] Hall; cbn.
  - by eexists.
  - destruct (Hall (u0, info0)) as [pr0 Hget]; [left|].
    unfold fetch in Hget. cbn in Hget. rewrite Hget. cbn.
    apply IH. intros kv Hin. apply Hall. by right.
Qed.

Lemma getPRs_spec (e e' : issuesAndPRs) (newPRs : gmap string PullRequest) :
  getPRs PullRequests_Get e = Ok (newPRs, e') →
  ge_issues e' = ge_issues e ∧ ge_prs e' = ge_prs e ∧
  ∀ u,
    newPRs !! u = ge_prs e !! u ≫= fetch PullRequests_Get ∧
    ge_names e' !! u
    = match ge_prs e !! u with
      | Some info => formatName <$> fetch PullRequests_Get info
      | None => ge_names e !! u
      end.
Proof.
  unfold getPRs. intros Hloop.
  apply getPRs_loop_spec in Hloop as (Hi & Hp & Hu);
    [|apply NoDup_fst_map_to_list].
  split; [done|]. split; [done|]. intros u.
  destruct (ge_prs e !! u) as [info|] eqn:Hinfo; cbn.
  - destruct (Hu u) as [Hin _].
    destruct (Hin info) as (pr & -> & -> & ->); [|done].
    by apply elem_of_map_to_list.
  - destruct (Hu u) as [_ Hout]. destruct Hout as [-> ->]; [|done].
    intros ((u' & info) & -> & Hin%elem_of_map_to_list)%list_elem_of_fmap.
    cbn in Hinfo. congruence.
Qed.

Lemma getPRs_is_Ok (e : issuesAndPRs) :
  allFetched PullRequests_Get e → is_Ok (getPRs PullRequests_Get e).
Proof.
  intros Hall. apply getPRs_loop_is_Ok.
  intros [u info] Hin%elem_of_map_to_list. by apply (Hall u).
Qed.

Lemma makeEventSets_is_Ok (e : issuesAndPRs) :
  allFetched PullRequests_Get e →
  is_Ok (makeEventSets user PullRequests_Get e).
Proof.
  intros Hall. unfold makeEventSets.
  destruct (getPRs_is_Ok e Hall) as [[newPRs e'] ->]. cbn. by eexists.
Qed.

(** The result of [makeEventSets], set by set. *)
Lemma makeEventSets_spec (e : issuesAndPRs) (es : eventSets) :
  makeEventSets user PullRequests_Get e = Ok es →
  (∀ c u,
     u ∈ categorySet c es
     ↔ ∃ info pr, ge_prs e !! u = Some info ∧
                  fetch PullRequests_Get info = Some pr ∧
                  spec_category user pr = Some c) ∧
  (∀ u, u ∈ issues es ↔ u ∈ dom (ge_issues e)) ∧
  (∀ u, names es !! u
        = match ge_prs e !! u with
          | Some info => formatName <$> fetch PullRequests_Get info
          | None => ge_names e !! u
          end).
Proof.
  unfold makeEventSets.
  destruct (getPRs PullRequests_Get e) as [[newPRs e']|] eqn:Hget; cbn;
    [|done].
  intros [= <-]. apply getPRs_spec in Hget as (Hi & Hp & Hu).
  split; [|split].
  - intros c u.
    replace (categorySet c _) with
      (categorySet c
         (foldl addIssueURL
            (foldl (classify user)
               {| names := ge_names e'; merged := ∅; abandoned := ∅;
                  underReview := ∅; inProgress := ∅; reviewed := ∅;
                  issues := ∅ |} (map_to_list newPRs))
            (map_to_list (ge_issues e')))) by (by destruct c).
    rewrite foldl_addIssueURL_category, foldl_classify_category.
    split.
    + intros [Hempty|(pr & Hin%elem_of_map_to_list & Hc)].
      { destruct c; cbn in Hempty; set_solver. }
      destruct (Hu u) as [Hnew _]. rewrite Hin in Hnew.
      destruct (ge_prs e !! u) as [info|]; [|done].
      exists info, pr. by split.
    + intros (info & pr & Hinfo & Hpr & Hc). right. exists pr.
      split; [|done]. apply elem_of_map_to_list.
      destruct (Hu u) as [-> _]. by rewrite Hinfo.
  - intros u. cbn.
    rewrite foldl_addIssueURL_issues, foldl_classify_issues, Hi. cbn.
    rewrite elem_of_dom. split.
    + intros [Hempty|Hin]; [by apply not_elem_of_empty in Hempty|].
      apply list_elem_of_fmap in Hin as ([u' i] & -> & Hin).
      apply elem_of_map_to_list in Hin. by exists i.
    + intros [i Hin]. right. apply list_elem_of_fmap. exists (u, i).
      split; [done|]. by apply elem_of_map_to_list.
  - intros u. cbn. by destruct (Hu u) as [_ ->].
Qed.

End ReconciliationFacts.

(** ** The classification rule *)

Lemma spec_category_unique (user : string)
    (PullRequests_Get : string → string → Z → option PullRequest)
    (e : issuesAndPRs) (es : eventSets) (u : url) (info : prInfo)
    (pr : PullRequest) (c c' : category) :
  makeEventSets user PullRequests_Get e = Ok es →
  ge_prs e !! u = Some info →
  fetch PullRequests_Get info = Some pr →
  spec_category user pr = Some c →
  u ∈ categorySet c' es → c' = c.
Proof.
  intros Hes Hinfo Hpr Hc Hin.
  apply makeEventSets_spec in Hes as (Hcat & _ & _).
  apply Hcat in Hin as (info' & pr' & Hinfo' & Hpr' & Hc'). congruence.
Qed.

(** A reference whose fetched state has category [c] is in the set of [c]
    and in no other pull-request set. *)
Lemma makeEventSets_places (user : string)
    (PullRequests_Get : string → string → Z → option PullRequest)
    (e : issuesAndPRs) (u : url) (info : prInfo) (pr : PullRequest)
    (c : category) :
  allFetched PullRequests_Get e →
  ge_prs e !! u = Some info →
  fetch PullRequests_Get info = Some pr →
  spec_category user pr = Some c →
  ∃ es, makeEventSets user PullRequests_Get e = Ok es ∧
        ∀ c', u ∈ categorySet c' es ↔ c' = c.
Proof.
  intros Hall Hinfo Hpr Hc.
  destruct (makeEventSets_is_Ok user _ e Hall) as [es Hes].
  exists es. split; [done|]. intros c'. split.
  - by eapply spec_category_unique.
  - intros ->. apply (makeEventSets_spec _ _ _ _ Hes). by exists info, pr.
Qed.

(** C2: if every query is answered and the pull request fetched for a
    reference has an author other than the acting user, reconciliation
    completes with the identifier in [reviewed], and in none of the other
    four pull-request sets, whatever the fetched state, merged flag and
    labels are. *)
Theorem makeEventSets_other_author_reviewed (user : string)
    (PullRequests_Get : string → string → Z → option PullRequest)
    (e : issuesAndPRs) (u : url) (info : prInfo) (pr : PullRequest) :
  allFetched PullRequests_Get e →
  ge_prs e !! u = Some info →
  fetch PullRequests_Get info = Some pr →
  GetLogin (GetUser pr) ≠ user →
  ∃ es, makeEventSets user PullRequests_Get e = Ok es ∧
        u ∈ reviewed es ∧
        (u ∉ merged es) ∧ (u ∉ abandoned es) ∧
        (u ∉ underReview es) ∧ (u ∉ inProgress es).
Proof.
  intros Hall Hinfo Hpr Hauthor.
  destruct (makeEventSets_places user _ e u info pr Reviewed Hall Hinfo Hpr)
    as (es & Hes & Hcat).
  { unfold spec_category. by destruct (decide _). }
  exists es. split; [done|].
  split; [by apply (Hcat Reviewed)|].
  repeat split.
  - by intros ?%(Hcat Merged).
  - by intros ?%(Hcat Abandoned).
  - by intros ?%(Hcat UnderReview).
  - by intros ?%(Hcat InProgress).
Qed.

Lemma makeEventSets_other_author_reviewed_witness :
  ∃ es, makeEventSets Sample.me Sample.Get Sample.ge = Ok es ∧
        Sample.url2 ∈ reviewed es.
Proof.
  destruct (makeEventSets_other_author_reviewed Sample.me Sample.Get
              Sample.ge Sample.url2
              {| owner := "knative"; repo := "eventing"; number := 2 |}
              Sample.pr2) as (es & Hes & Hin & _).
  - intros u info _. eexists. reflexivity.
  - reflexivity.
  - reflexivity.
  - discriminate.
  - exists es. split; [exact Hes | exact Hin].
Defined.

(** C3: if every query is answered and the pull request fetched for a
    reference is the acting user's and open, reconciliation completes and
    puts the identifier in [inProgress] (and not in [underReview]) when the
    fetched labels contain the work-in-progress label, and in [underReview]
    (and not in [inProgress]) when they do not. *)
Theorem makeEventSets_open_wip (user : string)
    (PullRequests_Get : string → string → Z → option PullRequest)
    (e : issuesAndPRs) (u : url) (info : prInfo) (pr : PullRequest) :
  allFetched PullRequests_Get e →
  ge_prs e !! u = Some info →
  fetch PullRequests_Get info = Some pr →
  GetLogin (GetUser pr) = user →
  GetState pr = "open" →
  ∃ es, makeEventSets user PullRequests_Get e = Ok es ∧
        (hasWipLabel pr → u ∈ inProgress es ∧ u ∉ underReview es) ∧
        (¬ hasWipLabel pr → u ∈ underReview es ∧ u ∉ inProgress es).
Proof.
  intros Hall Hinfo Hpr Hauthor Hstate.
  destruct (makeEventSets_places user _ e u info pr
              (if isWorkInProgress (pr_Labels pr) then InProgress
               else UnderReview) Hall Hinfo Hpr)
    as (es & Hes & Hcat).
  { unfold spec_category.
    rewrite (decide_True _ _ Hauthor), (decide_True _ _ Hstate).
    by destruct (isWorkInProgress _). }
  exists es. split; [done|]. unfold hasWipLabel.
  rewrite <- isWorkInProgress_spec.
  destruct (isWorkInProgress (pr_Labels pr)); split.
  - intros _. split; [by apply (Hcat InProgress)|].
    by intros ?%(Hcat UnderReview).
  - by intros [].
  - done.
  - intros _. split; [by apply (Hcat UnderReview)|].
    by intros ?%(Hcat InProgress).
Qed.

Lemma makeEventSets_open_wip_witness :
  ∃ es, makeEventSets Sample.me Sample.Get Sample.ge = Ok es ∧
        Sample.url1 ∈ inProgress es ∧ Sample.url1 ∉ underReview es.
Proof.
  destruct (makeEventSets_open_wip Sample.me Sample.Get Sample.ge Sample.url1
              {| owner := "knative"; repo := "eventing"; number := 1 |}
              Sample.pr1) as (es & Hes & Hwip & _).
  - intros u info _. eexists. reflexivity.
  - reflexivity.
  - reflexivity.
  - reflexivity.
  - reflexivity.
  - exists es. split; [exact Hes|]. apply Hwip.
    exists {| label_Name := Some wipLabel |}. split; [left | reflexivity].
Defined.

(** C4: if every query is answered and the pull request fetched for a
    reference is the acting user's and closed, reconciliation completes and
    puts the identifier in [merged] (and not in [abandoned]) when the
    platform reports it merged, and in [abandoned] (and not in [merged])
    when it does not. *)
Theorem makeEventSets_closed_merged (user : string)
    (PullRequests_Get : string → string → Z → option PullRequest)
    (e : issuesAndPRs) (u : url) (info : prInfo) (pr : PullRequest) :
  allFetched PullRequests_Get e →
  ge_prs e !! u = Some info →
  fetch PullRequests_Get info = Some pr →
  GetLogin (GetUser pr) = user →
  GetState pr = "closed" →
  ∃ es, makeEventSets user PullRequests_Get e = Ok es ∧
        (GetMerged pr = true → u ∈ merged es ∧ u ∉ abandoned es) ∧
        (GetMerged pr = false → u ∈ abandoned es ∧ u ∉ merged es).
Proof.
  intros Hall Hinfo Hpr Hauthor Hstate.
  destruct (makeEventSets_places user _ e u info pr
              (if GetMerged pr then Merged else Abandoned) Hall Hinfo Hpr)
    as (es & Hes & Hcat).
  { unfold spec_category.
    rewrite (decide_True _ _ Hauthor), decide_False, (decide_True _ _ Hstate);
      [by destruct (GetMerged pr)|by rewrite Hstate]. }
  exists es. split; [done|].
  destruct (GetMerged pr); split; try done; intros _.
  - split; [by apply (Hcat Merged)|]. by intros ?%(Hcat Abandoned).
  - split; [by apply (Hcat Abandoned)|]. by intros ?%(Hcat Merged).
Qed.

Lemma makeEventSets_closed_merged_witness :
  ∃ es, makeEventSets Sample.me Sample.Get Sample.ge = Ok es ∧
        Sample.url3 ∈ merged es ∧ Sample.url3 ∉ abandoned es.
Proof.
  destruct (makeEventSets_closed_merged Sample.me Sample.Get Sample.ge
              Sample.url3
              {| owner := "knative"; repo := "eventing"; number := 3 |}
              Sample.pr3) as (es & Hes & Hmerged & _).
  - intros u info _. eexists. reflexivity.
  - reflexivity.
  - reflexivity.
  - reflexivity.
  - reflexivity.
  - exists es. split; [exact Hes|]. apply Hmerged. reflexivity.
Defined.

(** C7: if every query is answered, reconciliation completes and the
    registry of its result holds, for every reference, the label formatted
    from the title and URL of the pull request fetched for it, whatever
    name discovery had stored. *)
Theorem makeEventSets_overrides_name (user : string)
    (PullRequests_Get : string → string → Z → option PullRequest)
    (e : issuesAndPRs) (u : url) (info : prInfo) (pr : PullRequest) :
  allFetched PullRequests_Get e →
  ge_prs e !! u = Some info →
  fetch PullRequests_Get info = Some pr →
  ∃ es, makeEventSets user PullRequests_Get e = Ok es ∧
        names es !! u
        = Some ("[" +:+ GetTitle pr +:+ "](" +:+ GetHTMLURL pr +:+ ")").
Proof.
  intros Hall Hinfo Hpr.
  destruct (makeEventSets_is_Ok user _ e Hall) as [es Hes].
  exists es. split; [done|].
  apply makeEventSets_spec in Hes as (_ & _ & Hnames).
  by rewrite Hnames, Hinfo, Hpr.
Qed.

Lemma makeEventSets_overrides_name_witness :
  Sample.ge.(ge_names) !! Sample.url1
  = Some "[Add broker](https://github.com/knative/eventing/pull/1)" ∧
  ∃ es, makeEventSets Sample.me Sample.Get Sample.ge = Ok es ∧
        names es !! Sample.url1
        = Some "[Add broker v2](https://github.com/knative/eventing/pull/1)".
Proof.
  split; [reflexivity|].
  apply (makeEventSets_overrides_name Sample.me Sample.Get Sample.ge
           Sample.url1
           {| owner := "knative"; repo := "eventing"; number := 1 |}
           Sample.pr1).
  - intros u info _. eexists. reflexivity.
  - reflexivity.
  - reflexivity.
Defined.

(** ** The partition *)

Lemma spec_category_None (user : string) (pr : PullRequest) :
  spec_category user pr = None
  ↔ GetLogin (GetUser pr) = user ∧
    GetState pr ≠ "open" ∧ GetState pr ≠ "closed".
Proof.
  unfold spec_category. break_ifs; naive_solver.
Qed.

Section Partition.

Variable user : string.
Variable PullRequests_Get : string → string → Z → option PullRequest.
Variables (e : issuesAndPRs) (es : eventSets).
Hypothesis Hes : makeEventSets user PullRequests_Get e = Ok es.

(** The five pull-request sets never overlap. *)
Lemma categorySet_disjoint (c c' : category) :
  c ≠ c' → categorySet c es ## categorySet c' es.
Proof.
  intros Hne. apply elem_of_disjoint. intros u Hc Hc'.
  apply (makeEventSets_spec _ _ _ _ Hes) in Hc as (info & pr & Hi & Hp & Hc).
  apply (makeEventSets_spec _ _ _ _ Hes) in Hc' as (? & ? & ? & ? & ?).
  congruence.
Qed.

Lemma categorySet_subseteq_prs (c : category) :
  categorySet c es ⊆ dom (ge_prs e).
Proof.
  intros u (info & _ & Hi & _)%(makeEventSets_spec _ _ _ _ Hes).
  apply elem_of_dom. by exists info.
Qed.

Lemma issues_dom : issues es = dom (ge_issues e).
Proof.
  apply set_eq. intros u. by apply (makeEventSets_spec _ _ _ _ Hes).
Qed.

Lemma elem_of_sixSets (u : url) :
  u ∈ ⋃ (sixSets es) ↔ (∃ c, u ∈ categorySet c es) ∨ u ∈ issues es.
Proof.
  unfold sixSets. cbn. rewrite !elem_of_union. split.
  - intros [?|[?|[?|[?|[?|[?|?%not_elem_of_empty]]]]]]; try done.
    + left. by exists Merged.
    + left. by exists Abandoned.
    + left. by exists UnderReview.
    + left. by exists InProgress.
    + left. by exists Reviewed.
    + by right.
  - intros [[[] ?]|?]; cbn in *; tauto.
Qed.

(** The union of the six sets: every plain issue, and every reference but
    the ones in no category. *)
Lemma sixSets_covers (u : url) :
  allFetched PullRequests_Get e →
  u ∈ ⋃ (sixSets es)
  ↔ u ∈ dom (ge_issues e) ∨
    (u ∈ dom (ge_prs e) ∧ ¬ skipped user PullRequests_Get e u).
Proof.
  intros Hall. rewrite elem_of_sixSets, issues_dom. split.
  - intros [[c Hc]|?]; [right|by left].
    split; [by eapply categorySet_subseteq_prs|].
    apply (makeEventSets_spec _ _ _ _ Hes) in Hc as (info & pr & Hi & Hp & Hc).
    intros (info' & pr' & Hi' & Hp' & Hskip).
    apply (spec_category_None user) in Hskip. congruence.
  - intros [?|[[info Hi]%elem_of_dom Hskip]]; [by right|left].
    destruct (Hall u info Hi) as [pr Hp].
    destruct (spec_category user pr) as [c|] eqn:Hc.
    + exists c. apply (makeEventSets_spec _ _ _ _ Hes). by exists info, pr.
    + destruct Hskip. exists info, pr.
      by apply spec_category_None in Hc.
Qed.

End Partition.

(** C1, as the code has it: if every query is answered and no identifier
    is both a plain issue and a pull-request reference, reconciliation
    completes, its six sets are pairwise disjoint, and their union is the
    set of the discovered identifiers without the references whose fetched
    author is the acting user and whose fetched state is neither "open" nor
    "closed". *)
Theorem makeEventSets_partition (user : string)
    (PullRequests_Get : string → string → Z → option PullRequest)
    (e : issuesAndPRs) :
  allFetched PullRequests_Get e →
  dom (ge_issues e) ## dom (ge_prs e) →
  ∃ es, makeEventSets user PullRequests_Get e = Ok es ∧
        pairwiseDisjoint (sixSets es) ∧
        ∀ u, u ∈ ⋃ (sixSets es)
             ↔ u ∈ discovered e ∧ ¬ skipped user PullRequests_Get e u.
Proof.
  intros Hall Hdisj.
  destruct (makeEventSets_is_Ok user _ e Hall) as [es Hes].
  exists es. split; [done|]. split.
  - pose proof (categorySet_disjoint _ _ _ _ Hes) as Hcc.
    assert (∀ c, categorySet c es ## issues es) as Hci.
    { intros c. rewrite (issues_dom _ _ _ _ Hes).
      pose proof (categorySet_subseteq_prs _ _ _ _ Hes c). set_solver. }
    intros i j X Y Hij Hi Hj. unfold sixSets in Hi, Hj.
    destruct i as [|[|[|[|[|[|i]]]]]]; destruct j as [|[|[|[|[|[|j]]]]]];
      simplify_eq/=;
      change (merged es) with (categorySet Merged es);
      change (abandoned es) with (categorySet Abandoned es);
      change (underReview es) with (categorySet UnderReview es);
      change (inProgress es) with (categorySet InProgress es);
      change (reviewed es) with (categorySet Reviewed es);
      first [ by apply Hcc | by apply Hci | by symmetry; apply Hci ].
  - intros u. rewrite (sixSets_covers _ _ _ _ Hes u Hall).
    unfold discovered. rewrite elem_of_union. split.
    + intros [Hi|[Hp Hskip]]; [|by split; [right|]].
      split; [by left|]. intros (info & _ & Hinfo & _).
      apply (Hdisj u Hi). apply elem_of_dom. by exists info.
    + intros [[?|?] Hskip]; [by left|by right].
Qed.

Lemma makeEventSets_partition_witness :
  ∃ es, makeEventSets Sample.me Sample.Get Sample.ge = Ok es ∧
        pairwiseDisjoint (sixSets es) ∧
        ∀ u, u ∈ ⋃ (sixSets es)
             ↔ u ∈ discovered Sample.ge ∧
               ¬ skipped Sample.me Sample.Get Sample.ge u.
Proof.
  apply (makeEventSets_partition Sample.me Sample.Get Sample.ge).
  - intros u info _. eexists. reflexivity.
  - apply (bool_decide_unpack _). vm_compute. exact I.
Defined.

(** C1 as stated fails on [Sample.clashEvents]: an identifier that is both
    a plain issue and the user's open pull request is in [underReview] and
    in [issues], and somebody else's pull request in the state "locked" is
    in [reviewed], so in the union, although its state is neither "open"
    nor "closed". *)
Lemma clash_breaks_partition :
  organizeEvents Sample.clashEvents = Ok Sample.clashGe ∧
  makeEventSets Sample.me Sample.clashGet Sample.clashGe
  = Ok Sample.clashSets ∧
  ¬ pairwiseDisjoint (sixSets Sample.clashSets) ∧
  ¬ spec_covers Sample.clashGet Sample.clashGe Sample.clashSets.
Proof.
  split; [by vm_compute|]. split; [by vm_compute|]. split.
  - intros Hdisj.
    apply (Hdisj 2%nat 5%nat {[ Sample.url1 ]} {[ Sample.url1 ]}
             ltac:(done) eq_refl eq_refl Sample.url1);
      by apply elem_of_singleton.
  - intros Hcov. destruct (Hcov Sample.url2) as [Hin _].
    destruct Hin as [_ Hknown].
    + unfold sixSets, Sample.clashSets. cbn. set_solver.
    + apply Hknown.
      exists {| owner := "knative"; repo := "eventing"; number := 2 |},
        (Sample.pull "Fix trigger" Sample.url2 "somebody" "locked" false []).
      by repeat split.
Qed.

(** ** The report *)

Lemma Join_cons (x : string) (xs : list string) (sep : string) :
  Strings.Join (x :: xs) sep
  = match xs with
    | [] => x
    | _ :: _ => x +:+ sep +:+ Strings.Join xs sep
    end.
Proof. by destruct xs. Qed.

Lemma Replace_Join (lines : list string) (sep : string) (old : ascii)
    (new : string) :
  Strings.Replace (Strings.Join lines sep) old new
  = Strings.Join ((λ l, Strings.Replace l old new) <$> lines)
      (Strings.Replace sep old new).
Proof.
  induction lines as [|x xs IH]; [done|].
  rewrite fmap_cons, !Join_cons. destruct xs as [|y ys]; [done|].
  rewrite !Replace_app, IH. done.
Qed.

Lemma foldl_printSection_body (names : gmap string string)
    (md : list string) (l : list url) :
  foldl (printSection_body names) md l = md ++ memberLines names l.
Proof.
  revert md. induction l as [|u l IH]; intros md; cbn.
  - by rewrite app_nil_r.
  - rewrite IH. unfold printSection_body.
    destruct (names !! u) as [name|]; cbn; [|done].
    by rewrite <- app_assoc.
Qed.

Lemma printSection_eq (range : gset string → list string)
    (names : gmap string string) (section : gset string) (title : string) :
  printSection range names section title
  = if decide (section = ∅) then []
    else headingLine title :: memberLines names (range section).
Proof.
  unfold printSection. destruct (decide (section = ∅)) as [->|Hne].
  - by rewrite size_empty.
  - destruct (0 <? size section)%nat eqn:Hsize.
    + by rewrite foldl_printSection_body.
    + apply Nat.ltb_ge in Hsize. destruct Hne.
      apply leibniz_equiv, size_empty_iff. lia.
Qed.

Lemma printSection_spec_block (range : gset string → list string)
    (names : gmap string string) (section : gset string) (title : string) :
  (∀ s, range s ≡ₚ elements s) →
  spec_block names (printSection range names section title) (section, title).
Proof.
  intros Hrange. rewrite printSection_eq. unfold spec_block. cbn.
  destruct (decide (section = ∅)); [done|].
  by exists (range section).
Qed.

(** C8: the report is the rendering (lines joined by newlines, every tab
    expanded to four spaces) of the top-level heading followed by one
    block per category in the order Merged, Abandoned, Under Review, In
    Progress, Reviewed, Issues; the block of a category without members is
    empty, and the block of any other is its indented sub-heading followed
    by one doubly-indented line for each member that has a registered
    name, made of that name, every member being taken once and a member
    without a name giving no line.  Rendering keeps the lines apart: it is
    the join of the tab-expanded lines. *)
Theorem markdown_report (range : gset string → list string) (e : eventSets) :
  (∀ s, range s ≡ₚ elements s) →
  ∃ blocks,
    Forall2 (spec_block (names e)) blocks (categories e) ∧
    markdown range e = render ("* GitHub" :: concat blocks) ∧
    markdown range e
    = Strings.Join
        ((λ l, Strings.Replace l tab "    ") <$> "* GitHub" :: concat blocks)
        newline.
Proof.
  intros Hrange.
  exists [printSection range (names e) (merged e) "Merged";
          printSection range (names e) (abandoned e) "Abandoned";
          printSection range (names e) (underReview e) "Under Review";
          printSection range (names e) (inProgress e) "In Progress";
          printSection range (names e) (reviewed e) "Reviewed";
          printSection range (names e) (issues e) "Issues"].
  assert (markdown range e
          = render ("* GitHub" ::
                    concat
                      [printSection range (names e) (merged e) "Merged";
                       printSection range (names e) (abandoned e) "Abandoned";
                       printSection range (names e) (underReview e)
                         "Under Review";
                       printSection range (names e) (inProgress e)
                         "In Progress";
                       printSection range (names e) (reviewed e) "Reviewed";
                       printSection range (names e) (issues e) "Issues"]))
    as Hmd.
  { unfold markdown, render. cbn [concat].
    by rewrite <- !app_assoc, app_nil_r. }
  split; [|split; [exact Hmd|]].
  - unfold categories.
    repeat (apply Forall2_cons; split;
            [by apply printSection_spec_block|]).
    by apply Forall2_nil.
  - rewrite Hmd. unfold render. by rewrite Replace_Join.
Qed.

Lemma markdown_report_witness :
  ∃ blocks,
    Forall2 (spec_block (names Sample.sets)) blocks
      (categories Sample.sets) ∧
    markdown elements Sample.sets = render ("* GitHub" :: concat blocks) ∧
    markdown elements Sample.sets
    = Strings.Join
        ((λ l, Strings.Replace l tab "    ") <$> "* GitHub" :: concat blocks)
        newline.
Proof.
  apply (markdown_report elements Sample.sets).
  intros s. reflexivity.
Defined.

Example makeEventSets_sample :
  makeEventSets Sample.me Sample.Get Sample.ge = Ok Sample.sets.
Proof. by vm_compute. Qed.

Example markdown_sample :
  markdown elements Sample.sets
  = "* GitHub
    * Merged
        * [Bump deps](https://github.com/knative/eventing/pull/3)
    * In Progress
        * [Add broker v2](https://github.com/knative/eventing/pull/1)
    * Reviewed
        * [Fix trigger](https://github.com/knative/eventing/pull/2)
    * Issues
        * [Flaky test](https://github.com/knative/eventing/issues/4)".
Proof. by vm_compute. Qed.

(** The member without a name gives no line; its category keeps the
    sub-heading. *)
Example markdown_nameless :
  markdown elements Sample.nameless
  = "* GitHub
    * Merged
    * Issues
        * [Flaky test]".
Proof. by vm_compute. Qed.

(** C9: the report starts with the line [* GitHub], which ends the report
    or is followed by a newline, and the report of a partition with six
    empty sets is that line alone, whatever the registry holds. *)
Theorem markdown_heading (range : gset string → list string) (e : eventSets) :
  (∃ rest, markdown range e = "* GitHub" +:+ rest ∧
           (rest = "" ∨ ∃ rest', rest = newline +:+ rest')) ∧
  ∀ registry,
    markdown range
      {| names := registry; merged := ∅; abandoned := ∅; underReview := ∅;
         inProgress := ∅; reviewed := ∅; issues := ∅ |}
    = "* GitHub".
Proof.
  split.
  - unfold markdown. rewrite <- !app_assoc.
    set (lines := printSection range (names e) (merged e) "Merged" ++ _).
    change (["* GitHub"] ++ lines) with ("* GitHub" :: lines).
    rewrite Join_cons. destruct lines as [|l lines].
    + exists "". split; [by vm_compute|by left].
    + rewrite !Replace_app.
      exists (newline +:+
              Strings.Replace (Strings.Join (l :: lines) newline) tab "    ").
      split; [done|]. right. by eexists.
  - intros registry. unfold markdown, printSection. cbn [names merged
      abandoned underReview inProgress reviewed issues].
    rewrite size_empty. by vm_compute.
Qed.

(** * Further properties *)

(** ** More on URL decomposition *)

Lemma Split_length (s : string) (sep : ascii) :
  length (Strings.Split s sep) = S (Strings.Count s sep).
Proof.
  induction s as [|c s IH]; [done|].
  cbn. destruct (Ascii.eqb c sep); cbn; [by rewrite IH|].
  destruct (Strings.Split s sep) as [|seg segs] eqn:Hs; [|done].
  by apply Split_nonempty in Hs.
Qed.

Lemma Split_free_of (s : string) (sep : ascii) :
  Forall (λ seg, Strings.free_of sep seg = true) (Strings.Split s sep).
Proof.
  induction s as [|c s IH]; cbn.
  - by apply Forall_singleton.
  - destruct (Ascii.eqb c sep) eqn:Hc; [by apply Forall_cons|].
    destruct (Strings.Split s sep) as [|seg segs].
    + apply Forall_singleton. cbn. by rewrite Hc.
    + apply Forall_cons in IH as [Hseg Hsegs]. apply Forall_cons.
      split; [|done]. cbn. by rewrite Hc.
Qed.

Lemma Join_Split (s : string) (sep : ascii) :
  Strings.Join (Strings.Split s sep) (String sep "") = s.
Proof.
  induction s as [|c s IH]; [done|].
  cbn [Strings.Split]. destruct (Ascii.eqb_spec c sep) as [->|Hne].
  - rewrite Join_cons.
    destruct (Strings.Split s sep) as [|seg segs] eqn:Hs;
      [by apply Split_nonempty in Hs|].
    by rewrite IH.
  - destruct (Strings.Split s sep) as [|seg segs] eqn:Hs;
      [by apply Split_nonempty in Hs|].
    rewrite Join_cons. rewrite Join_cons in IH.
    destruct segs; [by rewrite IH|].
    by rewrite app_String, IH.
Qed.

(** X1: the three ways in which decomposition fails, in the order in which
    they are tested.  Without the web root the error is the bad prefix, with
    the whole identifier; with the web root and fewer than three [/] after
    it the error is the number of splits, with the remainder; with at least
    three it is the parse error exactly when [strconv.Atoi] rejects the
    fourth segment. *)
Theorem crackPRInfo_errors :
  (∀ u, Strings.HasPrefix u webRoot = false →
        crackPRInfo u = Fatal (BadPrefix u)) ∧
  (∀ rest, (Strings.Count rest "/" < 3)%nat →
           crackPRInfo (webRoot +:+ rest)
           = Fatal (IncorrectNumberOfSplits rest)) ∧
  (∀ rest, (3 ≤ Strings.Count rest "/")%nat →
           ∃ o r k n tl,
             Strings.Split rest "/" = o :: r :: k :: n :: tl ∧
             (Strconv.Atoi n = None →
              crackPRInfo (webRoot +:+ rest)
              = Fatal (UnableToParseFourthSplit rest)) ∧
             (∀ v, Strconv.Atoi n = Some v →
                   crackPRInfo (webRoot +:+ rest)
                   = Ok {| owner := o; repo := r; number := v |})).
Proof.
  split; [|split].
  - intros u Hu. unfold crackPRInfo. by rewrite Hu.
  - intros rest Hcount. unfold crackPRInfo.
    rewrite HasPrefix_app, TrimPrefix_app. cbn [negb].
    rewrite Split_length.
    by destruct (Nat.ltb_spec (S (Strings.Count rest "/")) 4); [|lia].
  - intros rest Hcount.
    pose proof (Split_length rest "/") as Hlen.
    destruct (Strings.Split rest "/") as [|o [|r [|k [|n tl]]]] eqn:Hs;
      cbn in Hlen; try lia.
    exists o, r, k, n, tl. split; [done|].
    split; [intros Hn|intros v Hn];
      by rewrite (crackPRInfo_app _ _ _ _ _ _ Hs), Hn.
Qed.

Lemma crackPRInfo_errors_witness :
  crackPRInfo "http://github.com/ownerX/repoY/pull/42"
  = Fatal (BadPrefix "http://github.com/ownerX/repoY/pull/42") ∧
  crackPRInfo (webRoot +:+ "ownerX/repoY/pull")
  = Fatal (IncorrectNumberOfSplits "ownerX/repoY/pull").
Proof.
  destruct crackPRInfo_errors as (Hprefix & Hsplits & _). split.
  - apply Hprefix. reflexivity.
  - apply Hsplits. cbn. lia.
Defined.

(** X2: the coordinates of a successful decomposition are well formed:
    neither the owner nor the repository contains a [/], and the number is
    within the range of [int]. *)
Theorem crackPRInfo_well_formed (u : string) (info : prInfo) :
  crackPRInfo u = Ok info →
  Strings.free_of "/" (owner info) = true ∧
  Strings.free_of "/" (repo info) = true ∧
  Strconv.minInt ≤ number info ≤ Strconv.maxInt.
Proof.
  intros (rest & o & r & k & n & tl & v & -> & Hs & Hv & ->)
    %crackPRInfo_Ok_decomposes.
  pose proof (Split_free_of rest "/") as Hfree. rewrite Hs in Hfree.
  apply Forall_cons in Hfree as [Ho Hfree].
  apply Forall_cons in Hfree as [Hr _].
  cbn. split; [done|]. split; [done|]. by eapply Atoi_range.
Qed.

Lemma crackPRInfo_well_formed_witness :
  Strings.free_of "/" "ownerX" = true ∧
  Strings.free_of "/" "repoY" = true ∧
  Strconv.minInt ≤ 42 ≤ Strconv.maxInt.
Proof.
  apply (crackPRInfo_well_formed "https://github.com/ownerX/repoY/pull/42"
           {| owner := "ownerX"; repo := "repoY"; number := 42 |}).
  reflexivity.
Defined.

(** X3: a decomposed identifier can be put together again: it is the web
    root followed by the owner, the repository, a third segment, a fourth
    that [strconv.Atoi] reads as the number, and the segments after it,
    joined by [/]. *)
Theorem crackPRInfo_rebuild (u : string) (info : prInfo) :
  crackPRInfo u = Ok info →
  ∃ k n tl,
    u = webRoot +:+ Strings.Join (owner info :: repo info :: k :: n :: tl) "/"
    ∧ Strconv.Atoi n = Some (number info) ∧
    Forall (λ seg, Strings.free_of "/" seg = true) (k :: n :: tl).
Proof.
  intros (rest & o & r & k & n & tl & v & -> & Hs & Hv & ->)
    %crackPRInfo_Ok_decomposes.
  exists k, n, tl. cbn [owner repo number].
  pose proof (Split_free_of rest "/") as Hfree. rewrite Hs in Hfree.
  apply Forall_cons in Hfree as [_ Hfree].
  apply Forall_cons in Hfree as [_ Hfree].
  split; [|done]. by rewrite <- Hs, Join_Split.
Qed.

Lemma crackPRInfo_rebuild_witness :
  ∃ k n tl,
    "https://github.com/ownerX/repoY/pull/42/files"
    = webRoot +:+ Strings.Join ("ownerX" :: "repoY" :: k :: n :: tl) "/" ∧
    Strconv.Atoi n = Some 42 ∧
    Forall (λ seg, Strings.free_of "/" seg = true) (k :: n :: tl).
Proof.
  apply (crackPRInfo_rebuild "https://github.com/ownerX/repoY/pull/42/files"
           {| owner := "ownerX"; repo := "repoY"; number := 42 |}).
  reflexivity.
Defined.

(** ** More on discovery *)

Lemma parsePayloads_Ok_iff (events : list Event) (parsed : list Payload) :
  parsePayloads events = Ok parsed ↔ ParsePayload <$> events = Some <$> parsed.
Proof.
  revert parsed. induction events as [|ev events IH]; intros parsed; cbn.
  - split; [by intros [= <-]|]. by destruct parsed.
  - destruct (ParsePayload ev) as [p|] eqn:Hp.
    + destruct (parsePayloads events) as [parsed'|e] eqn:Hparsed; cbn.
      * split.
        -- intros [= <-]. rewrite fmap_cons. f_equal. by apply IH.
        -- destruct parsed as [|p' parsed]; [done|]. rewrite fmap_cons.
           intros [= -> Hrest]. apply IH in Hrest. congruence.
      * split; [done|]. destruct parsed as [|p' parsed]; [done|].
        rewrite fmap_cons. intros [= -> Hrest]. apply IH in Hrest. congruence.
    + split; [done|]. by destruct parsed.
Qed.


Lemma parsePayloads_total (events : list Event) :
  Forall (λ ev, is_Some (ParsePayload ev)) events →
  ∃ parsed, parsePayloads events = Ok parsed.
Proof.
  induction 1 as [|ev events [p Hp] _ [parsed IH]]; cbn; [by eexists|].
  rewrite Hp, IH. cbn. by eexists.
Qed.

Lemma routeEvents_app (l1 l2 : list Payload) (ge : issuesAndPRs) :
  routeEvents ge (l1 ++ l2)
  = rbind (routeEvents ge l1) (λ ge', routeEvents ge' l2).
Proof.
  revert ge. induction l1 as [|p l1 IH]; intros ge; cbn; [done|].
  destruct (routeEvent ge p) as [ge1|e]; cbn; [apply IH|done].
Qed.


Lemma addName_others {A : Type} `{nameable A} (e : issuesAndPRs) (n : A) :
  ge_issues (addName e n).1 = ge_issues e ∧ ge_prs (addName e n).1 = ge_prs e.
Proof. unfold addName. by destruct (ge_names e !! GetHTMLURL n). Qed.

Lemma addName_names_dom {A : Type} `{nameable A} (e : issuesAndPRs) (n : A) :
  dom (ge_names (addName e n).1) = {[GetHTMLURL n]} ∪ dom (ge_names e).
Proof.
  rewrite addName_fst_names.
  destruct (ge_names e !! GetHTMLURL n) eqn:Hn.
  - apply elem_of_dom_2 in Hn. set_solver.
  - by rewrite dom_insert_L.
Qed.

Lemma addIssue_effect (e e' : issuesAndPRs) (i : Issue) :
  addIssue e i = Ok e' →
  dom (ge_names e') = {[GetHTMLURL i]} ∪ dom (ge_names e) ∧
  if IsPullRequest i
  then ∃ info, crackPRInfo (GetHTMLURL i) = Ok info ∧
               ge_prs e' = <[GetHTMLURL i := info]> (ge_prs e) ∧
               ge_issues e' = ge_issues e
  else ge_prs e' = ge_prs e ∧
       ge_issues e'
       = match ge_issues e !! GetHTMLURL i with
         | Some _ => ge_issues e
         | None => <[GetHTMLURL i := i]> (ge_issues e)
         end.
Proof.
  intros Hadd. split.
  { by rewrite (addIssue_names _ _ _ Hadd), addName_names_dom. }
  revert Hadd. unfold addIssue.
  pose proof (addName_others e i) as [Hi Hp].
  pose proof (addName_snd e i) as Hu.
  destruct (addName e i) as [e1 u]. cbn [fst snd] in Hi, Hp, Hu. subst u.
  destruct (IsPullRequest i).
  - destruct (crackPRInfo (GetHTMLURL i)) as [info|]; cbn; [|done].
    intros [= <-]. exists info. cbn. by rewrite Hi, Hp.
  - rewrite Hi. destruct (ge_issues e !! GetHTMLURL i);
      intros [= <-]; cbn; by rewrite ?Hi, ?Hp.
Qed.

Lemma addPR_effect (e e' : issuesAndPRs) (pr : PullRequest) :
  addPR e pr = Ok e' →
  dom (ge_names e') = {[GetHTMLURL pr]} ∪ dom (ge_names e) ∧
  ge_issues e' = ge_issues e ∧
  match ge_prs e !! GetHTMLURL pr with
  | Some _ => ge_prs e' = ge_prs e
  | None => ∃ info, crackPRInfo (GetHTMLURL pr) = Ok info ∧
                    ge_prs e' = <[GetHTMLURL pr := info]> (ge_prs e)
  end.
Proof.
  intros Hadd. split.
  { by rewrite (addPR_names _ _ _ Hadd), addName_names_dom. }
  revert Hadd. unfold addPR.
  pose proof (addName_others e pr) as [Hi Hp].
  pose proof (addName_snd e pr) as Hu.
  destruct (addName e pr) as [e1 u]. cbn [fst snd] in Hi, Hp, Hu. subst u.
  rewrite Hp. destruct (ge_prs e !! GetHTMLURL pr).
  - by intros [= <-].
  - destruct (crackPRInfo (GetHTMLURL pr)) as [info|]; cbn; [|done].
    intros [= <-]. cbn. split; [done|]. by exists info.
Qed.

Lemma cracked_Some (u : url) (info : prInfo) :
  cracked u = Some info ↔ crackPRInfo u = Ok info.
Proof. unfold cracked. destruct (crackPRInfo u); naive_solver. Qed.

(** What routing one payload does to the plain issues. *)
Lemma routeEvent_issues (ge ge' : issuesAndPRs) (p : Payload) (u : url) :
  routeEvent ge p = Ok ge' →
  ge_issues ge' !! u
  = match ge_issues ge !! u with
    | Some i => Some i
    | None => firstIssue [p] u
    end.
Proof.
  assert (∀ i, addIssue ge i = Ok ge' →
    ge_issues ge' !! u
    = match ge_issues ge !! u with
      | Some i' => Some i'
      | None =>
          if IsPullRequest i then None
          else if decide (GetHTMLURL i = u) then Some i else None
      end) as Hissue.
  { intros i [_ Heff]%addIssue_effect. destruct (IsPullRequest i).
    - destruct Heff as (info & _ & _ & ->). by destruct (ge_issues ge !! u).
    - destruct Heff as [_ ->].
      destruct (decide (GetHTMLURL i = u)) as [->|Hne].
      + destruct (ge_issues ge !! u) eqn:Hu; [by rewrite Hu|].
        by rewrite lookup_insert_eq.
      + destruct (ge_issues ge !! GetHTMLURL i);
          rewrite ?lookup_insert_ne by done; by destruct (ge_issues ge !! u). }
  destruct p as [i|i|pr|pr| | | | |]; cbn.
  1,2: intros ->%Hissue; destruct (ge_issues ge !! u); [done|];
    by destruct (IsPullRequest i).
  1,2: intros (_ & -> & _)%addPR_effect; by destruct (ge_issues ge !! u).
  all: intros [= <-]; by destruct (ge_issues ge !! u).
Qed.

(** What routing one payload does to the references, and what its success
    tells. *)
Lemma routeEvent_prs (ge ge' : issuesAndPRs) (p : Payload) :
  routeEvent ge p = Ok ge' →
  prsCracked ge →
  prsCracked ge' ∧ cracks p ∧
  ∀ u, ge_prs ge' !! u
       = if decide (payloadPR p = Some u) then cracked u
         else ge_prs ge !! u.
Proof.
  intros Hroute Hinv.
  assert (∀ u0 info0,
    payloadPR p = Some u0 → crackPRInfo u0 = Ok info0 →
    ge_prs ge' = <[u0 := info0]> (ge_prs ge) →
    prsCracked ge' ∧ cracks p ∧
    ∀ u, ge_prs ge' !! u
         = if decide (payloadPR p = Some u) then cracked u
           else ge_prs ge !! u) as Hput.
  { intros u0 info0 Hp Hc Heq. unfold prsCracked. rewrite Heq.
    split; [|split].
    - intros u info. destruct (decide (u0 = u)) as [<-|Hne].
      + rewrite lookup_insert_eq. congruence.
      + rewrite lookup_insert_ne by done. apply Hinv.
    - unfold cracks. rewrite Hp. by exists info0.
    - intros u. rewrite Hp. destruct (decide (Some u0 = Some u)) as [[= <-]|Hne].
      + rewrite lookup_insert_eq. symmetry. by apply cracked_Some.
      + rewrite lookup_insert_ne; [done|congruence]. }
  assert (payloadPR p = None → ge_prs ge' = ge_prs ge →
    prsCracked ge' ∧ cracks p ∧
    ∀ u, ge_prs ge' !! u
         = if decide (payloadPR p = Some u) then cracked u
           else ge_prs ge !! u) as Hkeep.
  { intros Hp Heq. unfold cracks, prsCracked. rewrite Hp, Heq.
    split; [done|]. split; [done|]. intros u. by rewrite decide_False. }
  destruct p as [i|i|pr|pr| | | | |]; cbn in Hroute.
  1,2: apply addIssue_effect in Hroute as [_ Heff];
    destruct (IsPullRequest i) eqn:HisPR;
    [destruct Heff as (info & Hc & Hprs & _);
     apply (Hput (GetHTMLURL i) info); [cbn; by rewrite HisPR|done..]
    |destruct Heff as [Hprs _]; apply Hkeep; [cbn; by rewrite HisPR|done]].
  1,2: apply addPR_effect in Hroute as (_ & _ & Heff);
    destruct (ge_prs ge !! GetHTMLURL pr) as [info|] eqn:Hlook;
    [apply (Hput (GetHTMLURL pr) info eq_refl (Hinv _ _ Hlook));
     rewrite Heff; symmetry; by apply insert_id
    |destruct Heff as (info & Hc & Hprs);
     by apply (Hput (GetHTMLURL pr) info)].
  all: simplify_eq; by apply Hkeep.
Qed.

Lemma routeEvent_namesCover (ge ge' : issuesAndPRs) (p : Payload) :
  routeEvent ge p = Ok ge' → namesCover ge → namesCover ge'.
Proof.
  unfold namesCover. intros Hroute Hinv.
  destruct p as [i|i|pr|pr| | | | |]; cbn in Hroute.
  1,2: apply addIssue_effect in Hroute as [-> Heff]; rewrite Hinv;
    destruct (IsPullRequest i);
    [destruct Heff as (info & _ & -> & ->); rewrite dom_insert_L; set_solver
    |destruct Heff as [-> ->];
     destruct (ge_issues ge !! GetHTMLURL i) eqn:Hlook;
     [apply elem_of_dom_2 in Hlook|rewrite dom_insert_L]; set_solver].
  1,2: apply addPR_effect in Hroute as (-> & -> & Heff); rewrite Hinv;
    destruct (ge_prs ge !! GetHTMLURL pr) eqn:Hlook;
    [rewrite Heff; apply elem_of_dom_2 in Hlook; set_solver
    |destruct Heff as (info & _ & ->); rewrite dom_insert_L; set_solver].
  all: by simplify_eq.
Qed.

Lemma routeEvents_issues (parsed : list Payload) (ge ge' : issuesAndPRs)
    (u : url) :
  routeEvents ge parsed = Ok ge' →
  ge_issues ge' !! u
  = match ge_issues ge !! u with
    | Some i => Some i
    | None => firstIssue parsed u
    end.
Proof.
  revert ge. induction parsed as [|p parsed IH]; intros ge; cbn.
  - intros [= <-]. by destruct (ge_issues ge !! u).
  - destruct (routeEvent ge p) as [ge1|] eqn:Hp; cbn; [|done].
    intros Hrest. rewrite (IH _ Hrest), (routeEvent_issues _ _ _ u Hp).
    destruct (ge_issues ge !! u); [done|]. cbn.
    destruct (payloadIssue p) as [i|]; [|done]. by destruct (decide _).
Qed.

Lemma routeEvents_prs (parsed : list Payload) (ge ge' : issuesAndPRs) :
  routeEvents ge parsed = Ok ge' →
  prsCracked ge →
  prsCracked ge' ∧ Forall cracks parsed ∧
  ∀ u, ge_prs ge' !! u
       = if decide (Exists (λ p, payloadPR p = Some u) parsed) then cracked u
         else ge_prs ge !! u.
Proof.
  revert ge. induction parsed as [|p parsed IH]; intros ge; cbn.
  - intros [= <-] Hinv. split; [done|]. split; [done|]. intros u.
    rewrite decide_False; [done|]. by intros ?%Exists_nil.
  - destruct (routeEvent ge p) as [ge1|] eqn:Hp; cbn; [|done].
    intros Hrest Hinv.
    destruct (routeEvent_prs _ _ _ Hp Hinv) as (Hinv1 & Hc & Hprs1).
    destruct (IH _ Hrest Hinv1) as (Hinv' & Hcs & Hprs').
    split; [done|]. split; [by apply Forall_cons|]. intros u.
    rewrite Hprs', Hprs1.
    destruct (decide (Exists _ parsed)) as [Hex|Hnex].
    + rewrite decide_True; [done|]. by apply Exists_cons_tl.
    + destruct (decide (payloadPR p = Some u)) as [Hpu|Hnpu].
      * rewrite decide_True; [done|]. by apply Exists_cons_hd.
      * rewrite decide_False; [done|]. by intros [?|?]%Exists_cons.
Qed.

Lemma routeEvents_namesCover (parsed : list Payload) (ge ge' : issuesAndPRs) :
  routeEvents ge parsed = Ok ge' → namesCover ge → namesCover ge'.
Proof.
  revert ge. induction parsed as [|p parsed IH]; intros ge; cbn.
  - by intros [= <-].
  - destruct (routeEvent ge p) as [ge1|] eqn:Hp; cbn; [|done].
    intros Hrest Hinv. apply (IH _ Hrest).
    by eapply routeEvent_namesCover.
Qed.



Lemma prsCracked_empty : prsCracked emptyIssuesAndPRs.
Proof. intros u info. cbn. by rewrite lookup_empty. Qed.

Lemma namesCover_empty : namesCover emptyIssuesAndPRs.
Proof. unfold namesCover. cbn. by rewrite !dom_empty_L, union_empty_l_L. Qed.

Lemma organizeEvents_unfold (events : list Event) :
  organizeEvents events
  = rbind (parsePayloads events) (routeEvents emptyIssuesAndPRs).
Proof. reflexivity. Qed.




(** X6: after discovery the registry has a name for exactly the
    identifiers that are plain issues or pull-request references. *)
Theorem organizeEvents_names_dom (events : list Event) (ge : issuesAndPRs) :
  organizeEvents events = Ok ge →
  dom (ge_names ge) = dom (ge_issues ge) ∪ dom (ge_prs ge).
Proof.
  rewrite organizeEvents_unfold.
  destruct (parsePayloads events) as [parsed|]; cbn; [|done].
  intros Hge. apply (routeEvents_namesCover _ _ _ Hge), namesCover_empty.
Qed.

Lemma organizeEvents_names_dom_witness :
  dom (ge_names Sample.ge) = dom (ge_issues Sample.ge) ∪ dom (ge_prs Sample.ge).
Proof.
  apply (organizeEvents_names_dom Sample.events Sample.ge).
  vm_compute. reflexivity.
Defined.

(** X7: after discovery the pull-request references are the identifiers of
    the payloads routed as pull requests, each with the decomposition of
    the identifier itself. *)
Theorem organizeEvents_prs (events : list Event) (parsed : list Payload)
    (ge : issuesAndPRs) (u : url) (info : prInfo) :
  parsePayloads events = Ok parsed →
  organizeEvents events = Ok ge →
  ge_prs ge !! u = Some info
  ↔ crackPRInfo u = Ok info ∧ ∃ p, p ∈ parsed ∧ payloadPR p = Some u.
Proof.
  rewrite organizeEvents_unfold. intros -> Hge. cbn in Hge.
  apply routeEvents_prs in Hge as (_ & _ & ->); [|apply prsCracked_empty].
  cbn. rewrite lookup_empty.
  destruct (decide (Exists _ parsed)) as [Hex|Hnex].
  - rewrite cracked_Some. apply Exists_exists in Hex. naive_solver.
  - split; [done|]. intros [_ Hex]. destruct Hnex. by apply Exists_exists.
Qed.

Lemma organizeEvents_prs_witness :
  ge_prs Sample.ge !! Sample.url1
  = Some {| owner := "knative"; repo := "eventing"; number := 1 |}
  ↔ crackPRInfo Sample.url1
    = Ok {| owner := "knative"; repo := "eventing"; number := 1 |} ∧
    ∃ p, p ∈ Sample.parsed ∧ payloadPR p = Some Sample.url1.
Proof.
  apply (organizeEvents_prs Sample.events Sample.parsed Sample.ge).
  - reflexivity.
  - vm_compute. reflexivity.
Defined.

(** X8: after discovery the plain issue kept for an identifier is the one
    of the first payload that carries a plain issue with that identifier;
    later ones change nothing. *)
Theorem organizeEvents_first_issue_wins (events : list Event)
    (parsed : list Payload) (ge : issuesAndPRs) (u : url) :
  parsePayloads events = Ok parsed →
  organizeEvents events = Ok ge →
  ge_issues ge !! u = firstIssue parsed u.
Proof.
  rewrite organizeEvents_unfold. intros -> Hge. cbn in Hge.
  rewrite (routeEvents_issues _ _ _ u Hge). cbn. by rewrite lookup_empty.
Qed.

Lemma organizeEvents_first_issue_wins_witness :
  ge_issues Sample.ge !! Sample.url4 = firstIssue Sample.parsed Sample.url4.
Proof.
  apply (organizeEvents_first_issue_wins Sample.events Sample.parsed Sample.ge).
  - reflexivity.
  - vm_compute. reflexivity.
Defined.

Lemma parsePayloads_app (l1 l2 : list Event) :
  parsePayloads (l1 ++ l2)
  = rbind (parsePayloads l1)
      (λ p1, rbind (parsePayloads l2) (λ p2, Ok (p1 ++ p2))).
Proof.
  induction l1 as [|ev l1 IH]; cbn.
  - by destruct (parsePayloads l2).
  - destruct (ParsePayload ev); [|done]. rewrite IH.
    destruct (parsePayloads l1); cbn; [|done].
    by destruct (parsePayloads l2).
Qed.

Lemma routeEvent_not_routed (ge : issuesAndPRs) (p : Payload) :
  routed p = false → routeEvent ge p = Ok ge.
Proof. by destruct p. Qed.

(** X9: an event whose payload is of a kind that is not routed (a commit
    comment, a creation, a push, a deletion, any other kind) changes
    nothing, wherever it is in the sequence. *)
Theorem organizeEvents_ignores (before after : list Event) (ev : Event)
    (p : Payload) :
  ParsePayload ev = Some p →
  routed p = false →
  organizeEvents (before ++ ev :: after) = organizeEvents (before ++ after).
Proof.
  intros Hp Hr. rewrite !organizeEvents_unfold, !parsePayloads_app. cbn.
  rewrite Hp.
  destruct (parsePayloads before) as [p1|]; cbn; [|done].
  destruct (parsePayloads after) as [p2|]; cbn; [|done].
  rewrite !routeEvents_app.
  destruct (routeEvents emptyIssuesAndPRs p1) as [ge1|]; cbn; [|done].
  by rewrite routeEvent_not_routed.
Qed.

Lemma organizeEvents_ignores_witness :
  organizeEvents
    (take 2 Sample.events ++ {| ParsePayload := Some CreateEvent |}
       :: drop 2 Sample.events)
  = organizeEvents (take 2 Sample.events ++ drop 2 Sample.events).
Proof.
  apply (organizeEvents_ignores _ _ _ CreateEvent); reflexivity.
Defined.

Lemma firstSeen_is_Some (parsed : list Payload) (p : Payload) (u : url)
    (name : string) :
  p ∈ parsed → payloadItem p = Some (u, name) → is_Some (firstSeen parsed u).
Proof.
  intros Hin Hitem. induction Hin as [p parsed|p q parsed Hin IH]; cbn.
  - rewrite Hitem. by rewrite decide_True.
  - destruct (payloadItem q) as [[u' name']|]; [|by apply IH].
    destruct (decide (u' = u)); [done|by apply IH].
Qed.

Lemma firstIssue_is_Some (parsed : list Payload) (p : Payload) (i : Issue) :
  p ∈ parsed → payloadIssue p = Some i →
  is_Some (firstIssue parsed (GetHTMLURL i)).
Proof.
  intros Hin Hissue.
  induction Hin as [p parsed|p q parsed Hin IH]; cbn [firstIssue].
  - rewrite Hissue. by rewrite decide_True.
  - destruct (payloadIssue q) as [i'|]; [|by apply IH].
    destruct (decide (GetHTMLURL i' = GetHTMLURL i)); [done|by apply IH].
Qed.

(** Routing a payload whose item is already there changes nothing. *)
Lemma routeEvent_absorbed (ge : issuesAndPRs) (p : Payload) :
  (∀ u name, payloadItem p = Some (u, name) → is_Some (ge_names ge !! u)) →
  (∀ u, payloadPR p = Some u →
        ∃ info, ge_prs ge !! u = Some info ∧ crackPRInfo u = Ok info) →
  (∀ i, payloadIssue p = Some i → is_Some (ge_issues ge !! GetHTMLURL i)) →
  routeEvent ge p = Ok ge.
Proof.
  intros Hname Hpr Hissue. destruct ge as [ns iss ps].
  destruct p as [i|i|pr|pr| | | | |];
    cbn [routeEvent payloadItem payloadPR payloadIssue] in *; try done.
  1,2: unfold addIssue;
    rewrite addName_present by (by eapply Hname);
    destruct (IsPullRequest i);
    [destruct (Hpr _ eq_refl) as (info & Hlook & ->); cbn;
     by rewrite insert_id
    |by destruct (Hissue _ eq_refl) as [i' ->]].
  1,2: unfold addPR;
    rewrite addName_present by (by eapply Hname);
    by destruct (Hpr _ eq_refl) as (info & -> & _).
Qed.

Lemma routeEvents_absorbed (parsed parsed' : list Payload)
    (ge : issuesAndPRs) :
  routeEvents emptyIssuesAndPRs parsed = Ok ge →
  (∀ p, p ∈ parsed' → p ∈ parsed) →
  routeEvents ge parsed' = Ok ge.
Proof.
  intros Hge Hsub.
  destruct (routeEvents_prs _ _ _ Hge prsCracked_empty)
    as (_ & Hcracks & Hprs).
  induction parsed' as [|p parsed' IH]; [done|].
  cbn. rewrite routeEvent_absorbed; cbn.
  - apply IH. intros q Hq. apply Hsub. by right.
  - intros u name Hitem. rewrite (routeEvents_names _ _ _ u Hge). cbn.
    rewrite lookup_empty. eapply firstSeen_is_Some; [|done].
    apply Hsub. left.
  - intros u Hu. rewrite Hprs.
    assert (p ∈ parsed) as Hin by (apply Hsub; left).
    rewrite decide_True by (apply Exists_exists; by exists p).
    rewrite Forall_forall in Hcracks. specialize (Hcracks p Hin).
    unfold cracks in Hcracks. rewrite Hu in Hcracks.
    destruct Hcracks as [info Hc]. exists info.
    split; [by apply cracked_Some|done].
  - intros i Hi. rewrite (routeEvents_issues _ _ _ _ Hge). cbn.
    rewrite lookup_empty. eapply firstIssue_is_Some; [|done].
    apply Hsub. left.
Qed.

(** X10: events that were seen before change nothing when they come
    again: discovery on a sequence followed by events that all occur in it
    gives what it gives on the sequence alone, in the result and in the
    error. *)
Theorem organizeEvents_seen_again (events events' : list Event) :
  (∀ ev, ev ∈ events' → ev ∈ events) →
  organizeEvents (events ++ events') = organizeEvents events.
Proof.
  intros Hsub. rewrite !organizeEvents_unfold, parsePayloads_app.
  destruct (parsePayloads events) as [parsed|] eqn:Hparse; cbn; [|done].
  apply parsePayloads_Ok_iff in Hparse.
  assert (∃ parsed', parsePayloads events' = Ok parsed' ∧
                     ∀ p, p ∈ parsed' → p ∈ parsed) as (parsed' & -> & Hsub').
  { clear -Hsub Hparse. induction events' as [|ev events' IH].
    - exists []. split; [done|]. by intros p ?%elem_of_nil.
    - destruct IH as (parsed' & IH & Hsub').
      { intros ev' Hin. apply Hsub. by right. }
      assert (ParsePayload ev ∈ Some <$> parsed) as Hin.
      { rewrite <- Hparse. apply list_elem_of_fmap_2, Hsub. left. }
      apply list_elem_of_fmap in Hin as (p & Hp & Hin).
      exists (p :: parsed'). cbn. rewrite Hp, IH. cbn. split; [done|].
      intros q [->|Hq]%elem_of_cons; [done|by apply Hsub']. }
  cbn. rewrite routeEvents_app.
  destruct (routeEvents emptyIssuesAndPRs parsed) as [ge|] eqn:Hge; cbn;
    [|done].
  by eapply routeEvents_absorbed.
Qed.

Lemma organizeEvents_seen_again_witness :
  organizeEvents (Sample.events ++ reverse Sample.events)
  = organizeEvents Sample.events.
Proof.
  apply (organizeEvents_seen_again Sample.events (reverse Sample.events)).
  intros ev Hin. apply elem_of_reverse in Hin. exact Hin.
Defined.

(** ** More on reconciliation *)

Lemma getPRs_loop_Fatal
    (PullRequests_Get : string → string → Z → option PullRequest)
    (l : list (url * prInfo))
    (st : gmap string PullRequest * issuesAndPRs) (err : fatal) :
  getPRs_loop PullRequests_Get st l = Fatal err →
  ∃ u info, (u, info) ∈ l ∧ fetch PullRequests_Get info = None ∧
            err = UnableToGetPR u.
Proof.
  revert st. induction l as [|[u0 info0] l IH]; intros [newPRs e]; cbn;
    [done|].
  destruct (PullRequests_Get (owner info0) (repo info0) (number info0))
    as [pr0|] eqn:Hget; cbn.
  - intros (u & info & Hin & Hrest)%IH. exists u, info.
    split; [by right|done].
  - intros [= <-]. exists u0, info0. split; [left|done].
Qed.

Lemma makeEventSets_allFetched (user : string)
    (PullRequests_Get : string → string → Z → option PullRequest)
    (e : issuesAndPRs) (es : eventSets) :
  makeEventSets user PullRequests_Get e = Ok es →
  allFetched PullRequests_Get e.
Proof.
  intros Hes u info Hinfo. unfold makeEventSets in Hes.
  destruct (getPRs PullRequests_Get e) as [[newPRs e']|] eqn:Hget; [|done].
  apply getPRs_loop_spec in Hget as (_ & _ & Hu);
    [|apply NoDup_fst_map_to_list].
  destruct (Hu u) as [Hin _].
  destruct (Hin info) as (pr & Hpr & _); [by apply elem_of_map_to_list|].
  by exists pr.
Qed.

(** X11: reconciliation completes exactly when every query is answered;
    when it does not, the error names a reference whose query failed. *)
Theorem makeEventSets_Ok_iff (user : string)
    (PullRequests_Get : string → string → Z → option PullRequest)
    (e : issuesAndPRs) :
  (is_Ok (makeEventSets user PullRequests_Get e)
   ↔ allFetched PullRequests_Get e) ∧
  (∀ err, makeEventSets user PullRequests_Get e = Fatal err →
          ∃ u info, ge_prs e !! u = Some info ∧
                    fetch PullRequests_Get info = None ∧
                    err = UnableToGetPR u).
Proof.
  split; [split|].
  - intros [es Hes]. by eapply makeEventSets_allFetched.
  - apply makeEventSets_is_Ok.
  - intros err. unfold makeEventSets, getPRs.
    destruct (getPRs_loop _ _ _) as [[newPRs e']|err'] eqn:Hloop; [done|].
    cbn. intros [= <-].
    apply getPRs_loop_Fatal in Hloop as (u & info & Hin & Hrest).
    apply elem_of_map_to_list in Hin. by exists u, info.
Qed.

Lemma makeEventSets_Ok_iff_witness :
  ∃ u info, ge_prs Sample.ge !! u = Some info ∧
            fetch failingGet info = None ∧
            UnableToGetPR Sample.url2 = UnableToGetPR u.
Proof.
  destruct (makeEventSets_Ok_iff Sample.me failingGet Sample.ge) as [_ Herr].
  apply Herr. vm_compute. reflexivity.
Defined.

(** X12: the plain issues go into [issues] as they are, without a query:
    [issues] is the set of the identifiers of the plain issues, also of
    those that are pull-request references as well. *)
Theorem makeEventSets_issues (user : string)
    (PullRequests_Get : string → string → Z → option PullRequest)
    (e : issuesAndPRs) (es : eventSets) :
  makeEventSets user PullRequests_Get e = Ok es →
  issues es = dom (ge_issues e).
Proof. intros Hes. by eapply issues_dom. Qed.

Lemma makeEventSets_issues_witness :
  issues Sample.clashSets = dom (ge_issues Sample.clashGe).
Proof.
  apply (makeEventSets_issues Sample.me Sample.clashGet).
  vm_compute. reflexivity.
Defined.

(** X13: reconciliation touches the registry at the pull-request
    references only: every other identifier keeps the name it had (or has
    none, as before), and the identifiers with a name afterwards are those
    that had one together with the references. *)
Theorem makeEventSets_names_elsewhere (user : string)
    (PullRequests_Get : string → string → Z → option PullRequest)
    (e : issuesAndPRs) (es : eventSets) :
  makeEventSets user PullRequests_Get e = Ok es →
  (∀ u, u ∉ dom (ge_prs e) → names es !! u = ge_names e !! u) ∧
  dom (names es) = dom (ge_names e) ∪ dom (ge_prs e).
Proof.
  intros Hes.
  pose proof (makeEventSets_allFetched _ _ _ _ Hes) as Hall.
  apply makeEventSets_spec in Hes as (_ & _ & Hnames). split.
  - intros u Hu. rewrite Hnames.
    apply not_elem_of_dom in Hu. by rewrite Hu.
  - apply set_eq. intros u. rewrite elem_of_union, !elem_of_dom, Hnames.
    destruct (ge_prs e !! u) as [info|] eqn:Hinfo.
    + destruct (Hall u info Hinfo) as [pr ->]. cbn. split; [by right|done].
    + split; [by left|]. by intros [?|[? ?]].
Qed.

Lemma makeEventSets_names_elsewhere_witness :
  names Sample.sets !! Sample.url4 = ge_names Sample.ge !! Sample.url4.
Proof.
  destruct (makeEventSets_names_elsewhere Sample.me Sample.Get Sample.ge
              Sample.sets) as [Hkeep _].
  - vm_compute. reflexivity.
  - apply Hkeep. apply (bool_decide_unpack _). vm_compute. exact I.
Defined.

(** X14: a pull request is never in two of the five pull-request sets,
    and these sets hold pull-request references only; this needs no
    assumption on the plain issues. *)
Theorem makeEventSets_five_disjoint (user : string)
    (PullRequests_Get : string → string → Z → option PullRequest)
    (e : issuesAndPRs) (es : eventSets) :
  makeEventSets user PullRequests_Get e = Ok es →
  pairwiseDisjoint (fiveSets es) ∧
  ∀ X, X ∈ fiveSets es → X ⊆ dom (ge_prs e).
Proof.
  intros Hes.
  pose proof (categorySet_disjoint _ _ _ _ Hes) as Hcc.
  pose proof (categorySet_subseteq_prs _ _ _ _ Hes) as Hsub.
  split.
  - intros i j X Y Hij Hi Hj. unfold fiveSets in Hi, Hj.
    destruct i as [|[|[|[|[|i]]]]]; destruct j as [|[|[|[|[|j]]]]];
      simplify_eq/=;
      change (merged es) with (categorySet Merged es);
      change (abandoned es) with (categorySet Abandoned es);
      change (underReview es) with (categorySet UnderReview es);
      change (inProgress es) with (categorySet InProgress es);
      change (reviewed es) with (categorySet Reviewed es);
      by apply Hcc.
  - intros X HX. unfold fiveSets in HX.
    repeat (apply elem_of_cons in HX as [->|HX]); [..|by apply elem_of_nil in HX].
    + apply (Hsub Merged).
    + apply (Hsub Abandoned).
    + apply (Hsub UnderReview).
    + apply (Hsub InProgress).
    + apply (Hsub Reviewed).
Qed.

Lemma makeEventSets_five_disjoint_witness :
  pairwiseDisjoint (fiveSets Sample.clashSets) ∧
  ∀ X, X ∈ fiveSets Sample.clashSets → X ⊆ dom (ge_prs Sample.clashGe).
Proof.
  apply (makeEventSets_five_disjoint Sample.me Sample.clashGet).
  vm_compute. reflexivity.
Defined.

(** X15: the acting user's own pull request whose fetched state is neither
    "open" nor "closed" is left out of all five pull-request sets; it does
    not stop the run. *)
Theorem makeEventSets_unknown_state_dropped (user : string)
    (PullRequests_Get : string → string → Z → option PullRequest)
    (e : issuesAndPRs) (es : eventSets) (u : url) (info : prInfo)
    (pr : PullRequest) :
  makeEventSets user PullRequests_Get e = Ok es →
  ge_prs e !! u = Some info →
  fetch PullRequests_Get info = Some pr →
  GetLogin (GetUser pr) = user →
  GetState pr ≠ "open" →
  GetState pr ≠ "closed" →
  ∀ X, X ∈ fiveSets es → u ∉ X.
Proof.
  intros Hes Hinfo Hpr Hauthor Hopen Hclosed.
  assert (∀ c, u ∉ categorySet c es) as Hnot.
  { intros c (info' & pr' & Hinfo' & Hpr' & Hc)%(makeEventSets_spec _ _ _ _ Hes).
    assert (spec_category user pr = None) as Hnone
      by by apply spec_category_None.
    congruence. }
  intros X HX. unfold fiveSets in HX.
  repeat (apply elem_of_cons in HX as [->|HX]); [..|by apply elem_of_nil in HX].
  - apply (Hnot Merged).
  - apply (Hnot Abandoned).
  - apply (Hnot UnderReview).
  - apply (Hnot InProgress).
  - apply (Hnot Reviewed).
Qed.

Lemma makeEventSets_unknown_state_dropped_witness :
  Sample.url1 ∉ underReview lockedSets.
Proof.
  apply (makeEventSets_unknown_state_dropped Sample.me lockedGet lockedGe
           lockedSets Sample.url1
           {| owner := "knative"; repo := "eventing"; number := 1 |}
           (Sample.pull "Add broker" Sample.url1 Sample.me "locked" false [])).
  - vm_compute. reflexivity.
  - reflexivity.
  - reflexivity.
  - reflexivity.
  - discriminate.
  - discriminate.
  - right. right. left.
Defined.

(** ** From the events to the report *)

Lemma report_unfold (user : string)
    (PullRequests_Get : string → string → Z → option PullRequest)
    (range : gset string → list string) (fe : list Event)
    (ge : issuesAndPRs) (es : eventSets) :
  organizeEvents fe = Ok ge →
  makeEventSets user PullRequests_Get ge = Ok es →
  report user PullRequests_Get range fe = Ok (markdown range es).
Proof. intros Hge Hes. unfold report. by rewrite Hge; cbn; rewrite Hes. Qed.

Lemma discovered_named (user : string)
    (PullRequests_Get : string → string → Z → option PullRequest)
    (events : list Event) (ge : issuesAndPRs) (es : eventSets) (u : url) :
  organizeEvents events = Ok ge →
  makeEventSets user PullRequests_Get ge = Ok es →
  u ∈ ⋃ (sixSets es) → is_Some (names es !! u).
Proof.
  intros Hge Hes Hu.
  assert (namesCover ge) as Hcover.
  { revert Hge. rewrite organizeEvents_unfold.
    destruct (parsePayloads events) as [parsed|]; cbn; [|done].
    intros Hge. apply (routeEvents_namesCover _ _ _ Hge), namesCover_empty. }
  pose proof (makeEventSets_allFetched _ _ _ _ Hes) as Hall.
  apply elem_of_sixSets in Hu.
  assert (u ∈ dom (ge_issues ge) ∪ dom (ge_prs ge)) as Hdisc.
  { destruct Hu as [[c Hc]|Hi].
    - apply elem_of_union_r. by eapply categorySet_subseteq_prs.
    - apply elem_of_union_l. by rewrite <- (issues_dom _ _ _ _ Hes). }
  apply makeEventSets_spec in Hes as (_ & _ & Hnames). rewrite Hnames.
  destruct (ge_prs ge !! u) as [info|] eqn:Hinfo.
  - destruct (Hall u info Hinfo) as [pr ->]. by eexists.
  - apply elem_of_dom. rewrite Hcover. done.
Qed.

(** X16: after discovery and reconciliation every member of the six sets
    has a name in the registry, so the report has a line for each of
    them. *)
Theorem report_members_named (user : string)
    (PullRequests_Get : string → string → Z → option PullRequest)
    (events : list Event) (ge : issuesAndPRs) (es : eventSets) :
  organizeEvents events = Ok ge →
  makeEventSets user PullRequests_Get ge = Ok es →
  ∀ u, u ∈ ⋃ (sixSets es) → is_Some (names es !! u).
Proof. intros Hge Hes u. by eapply discovered_named. Qed.

Lemma report_members_named_witness :
  is_Some (names Sample.sets !! Sample.url3).
Proof.
  apply (report_members_named Sample.me Sample.Get Sample.events Sample.ge
           Sample.sets).
  - vm_compute. reflexivity.
  - vm_compute. reflexivity.
  - apply elem_of_union_list. exists (merged Sample.sets).
    split; [left|]. apply (bool_decide_unpack _). vm_compute. exact I.
Defined.

Lemma memberLines_length (names : gmap string string) (l : list url) :
  (∀ u, u ∈ l → is_Some (names !! u)) →
  length (memberLines names l) = length l.
Proof.
  induction l as [|u l IH]; intros Hall; [done|].
  unfold memberLines in *. cbn.
  destruct (Hall u) as [name ->]; [left|]. cbn. f_equal.
  apply IH. intros u' Hu'. apply Hall. by right.
Qed.

(** X17: in the report of a run no line is lost: the block of a category
    with members has one line more than the category has members, for
    every order in which [range] visits them. *)
Theorem report_block_length (user : string)
    (PullRequests_Get : string → string → Z → option PullRequest)
    (range : gset string → list string)
    (events : list Event) (ge : issuesAndPRs) (es : eventSets)
    (category : gset string * string) :
  (∀ s, range s ≡ₚ elements s) →
  organizeEvents events = Ok ge →
  makeEventSets user PullRequests_Get ge = Ok es →
  category ∈ categories es →
  length (printSection range (names es) category.1 category.2)
  = if decide (category.1 = ∅) then 0%nat else S (size category.1).
Proof.
  intros Hrange Hge Hes Hcat. rewrite printSection_eq.
  destruct (decide (category.1 = ∅)); [done|]. cbn. f_equal.
  rewrite memberLines_length.
  - by rewrite Hrange.
  - intros u Hu. eapply discovered_named; [done..|].
    rewrite Hrange in Hu. apply elem_of_elements in Hu.
    unfold categories in Hcat. unfold sixSets. cbn.
    repeat (apply elem_of_cons in Hcat as [->|Hcat]);
      [..|by apply elem_of_nil in Hcat]; cbn in Hu; set_solver.
Qed.

Lemma report_block_length_witness :
  length (printSection elements (names Sample.sets) (merged Sample.sets)
            "Merged")
  = 2%nat.
Proof.
  apply (report_block_length Sample.me Sample.Get elements Sample.events
           Sample.ge Sample.sets (merged Sample.sets, "Merged")).
  - intros s. reflexivity.
  - vm_compute. reflexivity.
  - vm_compute. reflexivity.
  - left.
Defined.

Lemma makeEventSets_empty (user : string)
    (PullRequests_Get : string → string → Z → option PullRequest) :
  makeEventSets user PullRequests_Get emptyIssuesAndPRs
  = Ok {| names := ∅; merged := ∅; abandoned := ∅; underReview := ∅;
          inProgress := ∅; reviewed := ∅; issues := ∅ |}.
Proof.
  unfold makeEventSets, getPRs, emptyIssuesAndPRs.
  cbn [ge_prs ge_issues ge_names]. rewrite map_to_list_empty. cbn.
  by rewrite !map_to_list_empty.
Qed.

Lemma markdown_empty (range : gset string → list string)
    (registry : gmap string string) :
  markdown range
    {| names := registry; merged := ∅; abandoned := ∅; underReview := ∅;
       inProgress := ∅; reviewed := ∅; issues := ∅ |}
  = "* GitHub".
Proof.
  unfold markdown, printSection.
  cbn [names merged abandoned underReview inProgress reviewed issues].
  rewrite size_empty. by vm_compute.
Qed.

(** X18: when no event is of a routed kind, no query is made and the
    report is the heading alone. *)
Theorem report_nothing_routed (user : string)
    (PullRequests_Get : string → string → Z → option PullRequest)
    (range : gset string → list string) (fe : list Event) :
  Forall (λ ev, ∃ p, ParsePayload ev = Some p ∧ routed p = false) fe →
  report user PullRequests_Get range fe = Ok "* GitHub".
Proof.
  intros Hall.
  assert (organizeEvents fe = Ok emptyIssuesAndPRs) as Hge.
  { rewrite organizeEvents_unfold.
    assert (∃ parsed, parsePayloads fe = Ok parsed ∧
                      Forall (λ p, routed p = false) parsed)
      as (parsed & -> & Hparsed).
    { induction Hall as [|ev fe (p & Hp & Hr) _ (parsed & IH & Hrs)].
      - by exists [].
      - exists (p :: parsed). cbn. rewrite Hp, IH. cbn.
        split; [done|]. by apply Forall_cons. }
    cbn. induction Hparsed as [|p parsed Hr _ IH]; [done|].
    cbn. by rewrite routeEvent_not_routed. }
  unfold report. rewrite Hge. cbn [rbind].
  rewrite makeEventSets_empty. cbn [rbind]. by rewrite markdown_empty.
Qed.

Lemma report_nothing_routed_witness :
  report Sample.me failingGet elements
    [ {| ParsePayload := Some PushEvent |};
      {| ParsePayload := Some CreateEvent |} ]
  = Ok "* GitHub".
Proof.
  apply report_nothing_routed.
  apply Forall_cons. split; [by exists PushEvent|].
  apply Forall_cons. split; [by exists CreateEvent|].
  apply Forall_nil. exact I.
Defined.

(** ** More on the report *)

Lemma free_of_app (c : ascii) (s t : string) :
  Strings.free_of c (s +:+ t) = Strings.free_of c s && Strings.free_of c t.
Proof.
  induction s as [|a s IH]; [done|].
  rewrite app_String. cbn. rewrite IH. by rewrite andb_assoc.
Qed.

Lemma Replace_free_of (s : string) (old : ascii) (new : string) :
  Strings.free_of old new = true →
  Strings.free_of old (Strings.Replace s old new) = true.
Proof.
  intros Hnew. induction s as [|a s IH]; [done|].
  cbn. destruct (Ascii.eqb a old) eqn:Ha.
  - by rewrite free_of_app, Hnew, IH.
  - cbn. by rewrite Ha, IH.
Qed.

(** X19: the report has no tab, whatever the titles contain. *)
Theorem markdown_no_tab (range : gset string → list string) (e : eventSets) :
  Strings.free_of tab (markdown range e) = true.
Proof. unfold markdown. by apply Replace_free_of. Qed.

Lemma Replace_headingLine (title : string) :
  Strings.free_of tab title = true →
  Strings.Replace (headingLine title) tab "    " = printedHeading title.
Proof.
  intros Htitle. unfold headingLine, printedHeading.
  change (String tab ("* " +:+ title)) with ((String tab "* ") +:+ title).
  rewrite Replace_app, (Replace_free title) by done. by vm_compute.
Qed.

Lemma Replace_memberLines (names : gmap string string) (l : list url) :
  (∀ u name, names !! u = Some name → Strings.free_of tab name = true) →
  (λ line, Strings.Replace line tab "    ") <$> memberLines names l
  = omap (λ u, printedMember <$> names !! u) l.
Proof.
  intros Hfree. induction l as [|u l IH]; [done|].
  unfold memberLines in *. cbn.
  destruct (names !! u) as [name|] eqn:Hname; cbn; [|done].
  rewrite IH. f_equal.
  by rewrite Replace_app, (Replace_free name) by by eapply Hfree.
Qed.

Lemma Replace_printSection (range : gset string → list string)
    (names : gmap string string) (section : gset string) (title : string) :
  (∀ u name, names !! u = Some name → Strings.free_of tab name = true) →
  Strings.free_of tab title = true →
  (λ line, Strings.Replace line tab "    ")
    <$> printSection range names section title
  = if decide (section = ∅) then []
    else printedHeading title ::
         omap (λ u, printedMember <$> names !! u) (range section).
Proof.
  intros Hfree Htitle. rewrite printSection_eq.
  destruct (decide (section = ∅)); [done|].
  by rewrite fmap_cons, Replace_headingLine, Replace_memberLines.
Qed.

Lemma printedLines_markdown (range : gset string → list string)
    (e : eventSets) :
  (∀ u name, names e !! u = Some name → Strings.free_of tab name = true) →
  markdown range e = Strings.Join (printedLines range e) newline.
Proof.
  intros Hfree. unfold markdown. rewrite Replace_Join.
  change (Strings.Replace newline tab "    ") with newline. f_equal.
  rewrite !fmap_app, !Replace_printSection by done.
  unfold printedLines, categories. cbn [flat_map fst snd].
  rewrite <- !app_assoc, app_nil_r. done.
Qed.

(** X20: when no registered name has a tab, the report is made of these
    lines, joined by newlines: the heading [* GitHub], then for each
    category with members, in the order of the report, its title after
    four spaces and [* ], and for each member that has a name, in the
    order in which [range] visits them, the name after eight spaces and
    [* ]. *)
Theorem markdown_printed (range : gset string → list string) (e : eventSets) :
  (∀ u name, names e !! u = Some name → Strings.free_of tab name = true) →
  markdown range e = Strings.Join (printedLines range e) newline.
Proof. apply printedLines_markdown. Qed.

Lemma markdown_printed_witness :
  markdown elements Sample.nameless
  = Strings.Join (printedLines elements Sample.nameless) newline.
Proof.
  apply (markdown_printed elements Sample.nameless).
  intros u name Hname. cbn in Hname.
  apply lookup_singleton_Some in Hname as [_ <-]. reflexivity.
Defined.

Lemma range_singleton (range : gset string → list string) (u : url) :
  (∀ s, range s ≡ₚ elements s) → range {[u]} = [u].
Proof.
  intros Hrange. apply Permutation_singleton_r.
  by rewrite Hrange, elements_singleton.
Qed.

(** X21: from the events to the text.  A pull-request event followed by an
    older comment event on the same pull request, which reconciliation
    finds to be the acting user's, open and without the work-in-progress
    label, give a report with the heading, the sub-heading Under Review
    and one line, made of the fetched title and URL and not of the title
    of either event. *)
Theorem report_under_review (user : string)
    (PullRequests_Get : string → string → Z → option PullRequest)
    (range : gset string → list string)
    (pr : PullRequest) (i : Issue) (u : url) (info : prInfo)
    (pr' : PullRequest) :
  (∀ s, range s ≡ₚ elements s) →
  GetHTMLURL pr = u →
  GetHTMLURL i = u →
  IsPullRequest i = true →
  crackPRInfo u = Ok info →
  fetch PullRequests_Get info = Some pr' →
  GetLogin (GetUser pr') = user →
  GetState pr' = "open" →
  ¬ hasWipLabel pr' →
  Strings.free_of tab (formatName pr') = true →
  report user PullRequests_Get range
    [ {| ParsePayload := Some (PullRequestEvent pr) |};
      {| ParsePayload := Some (IssueCommentEvent i) |} ]
  = Ok ("* GitHub" +:+ newline +:+
        "    * Under Review" +:+ newline +:+
        "        * " +:+ formatName pr').
Proof.
  intros Hrange Hpr Hi HisPR Hcrack Hfetch Hauthor Hstate Hwip Hfree.
  set (parsed := [PullRequestEvent pr; IssueCommentEvent i]).
  assert (Forall cracks parsed) as Hcracks.
  { repeat (apply Forall_cons; split; [|]); [..|done];
      unfold cracks; cbn [payloadPR]; rewrite ?HisPR, ?Hpr, ?Hi;
      by exists info. }
  destruct (routeEvents_is_Ok parsed emptyIssuesAndPRs Hcracks) as [ge Hge].
  assert (ge_prs ge = {[u := info]}) as Hprs.
  { destruct (routeEvents_prs _ _ _ Hge prsCracked_empty) as (_ & _ & Hlook).
    apply map_eq. intros u'. rewrite Hlook. cbn [ge_prs emptyIssuesAndPRs].
    destruct (decide (u = u')) as [<-|Hne].
    - rewrite decide_True
        by (apply Exists_cons_hd; cbn [payloadPR]; by rewrite Hpr).
      rewrite lookup_singleton_eq. by apply cracked_Some.
    - rewrite lookup_singleton_ne by done. rewrite decide_False; [done|].
      unfold parsed. rewrite !Exists_cons, Exists_nil.
      cbn [payloadPR]. rewrite HisPR, Hpr, Hi. naive_solver. }
  assert (ge_issues ge = ∅) as Hnoissue.
  { apply map_eq. intros u'. rewrite (routeEvents_issues _ _ _ u' Hge).
    cbn [ge_issues emptyIssuesAndPRs]. rewrite !lookup_empty.
    cbn [parsed firstIssue payloadIssue]. by rewrite HisPR. }
  assert (organizeEvents
            [ {| ParsePayload := Some (PullRequestEvent pr) |};
              {| ParsePayload := Some (IssueCommentEvent i) |} ] = Ok ge)
    as Hge' by exact Hge.
  pose proof (routeEvents_namesCover _ _ _ Hge namesCover_empty) as Hcover.
  clear Hge. rename Hge' into Hge.
  assert (allFetched PullRequests_Get ge) as Hall.
  { intros u' info'. rewrite Hprs.
    intros [<- <-]%lookup_singleton_Some. by eexists. }
  destruct (makeEventSets_is_Ok user _ ge Hall) as [es Hes].
  rewrite (report_unfold _ _ _ _ _ _ Hge Hes). f_equal.
  pose proof (makeEventSets_spec _ _ _ _ Hes) as (Hcat & Hissues & Hnames).
  assert (spec_category user pr' = Some UnderReview) as Hc.
  { unfold spec_category.
    rewrite (decide_True _ _ Hauthor), (decide_True _ _ Hstate).
    destruct (isWorkInProgress (pr_Labels pr')) eqn:Hw; [|done].
    by apply isWorkInProgress_spec in Hw. }
  assert (categorySet UnderReview es = {[u]}) as Hunder.
  { apply set_eq. intros u'. rewrite Hcat, Hprs, elem_of_singleton. split.
    - by intros (info' & pr'' & [<- <-]%lookup_singleton_Some & _).
    - intros ->. exists info, pr'. by rewrite lookup_singleton_eq. }
  assert (∀ c, c ≠ UnderReview → categorySet c es = ∅) as Hsets.
  { intros c Hne. apply set_eq. intros u'. rewrite Hcat, Hprs. split.
    - intros (info' & pr'' & [<- <-]%lookup_singleton_Some & Hp & Hc').
      congruence.
    - by intros ?%not_elem_of_empty. }
  assert (issues es = ∅) as Hempty.
  { apply set_eq. intros u'. rewrite Hissues, Hnoissue. set_solver. }
  rewrite printedLines_markdown.
  - unfold printedLines, categories. cbn [flat_map fst snd].
    change (merged es) with (categorySet Merged es).
    change (abandoned es) with (categorySet Abandoned es).
    change (underReview es) with (categorySet UnderReview es).
    change (inProgress es) with (categorySet InProgress es).
    change (reviewed es) with (categorySet Reviewed es).
    rewrite Hunder, !Hsets, Hempty by done.
    rewrite !(decide_True (P := (∅ : gset string) = ∅)) by done.
    rewrite (decide_False (P := ({[u]} : gset string) = ∅)) by set_solver.
    rewrite (range_singleton _ _ Hrange). cbn.
    rewrite Hnames, Hprs, lookup_singleton_eq, Hfetch. done.
  - intros u' name Hname. rewrite Hnames, Hprs in Hname.
    destruct (decide (u = u')) as [<-|Hne].
    + rewrite lookup_singleton_eq, Hfetch in Hname. by injection Hname as <-.
    + exfalso. rewrite lookup_singleton_ne in Hname by done.
      assert (u' ∈ dom (ge_names ge)) as Hin by by apply elem_of_dom_2 in Hname.
      rewrite Hcover, Hnoissue, Hprs in Hin. set_solver.
Qed.

Lemma report_under_review_witness :
  report Sample.me Sample.clashGet elements
    [ {| ParsePayload :=
           Some (PullRequestEvent
                   (Sample.pull "Old title" Sample.url1 Sample.me "closed"
                      true [])) |};
      {| ParsePayload :=
           Some (IssueCommentEvent
                   (Sample.issue "Older title" Sample.url1 true)) |} ]
  = Ok "* GitHub
    * Under Review
        * [Add broker](https://github.com/knative/eventing/pull/1)".
Proof.
  apply (report_under_review Sample.me Sample.clashGet elements
           (Sample.pull "Old title" Sample.url1 Sample.me "closed" true [])
           (Sample.issue "Older title" Sample.url1 true)
           Sample.url1
           {| owner := "knative"; repo := "eventing"; number := 1 |}
           (Sample.pull "Add broker" Sample.url1 Sample.me "open" false [])).
  - intros s. reflexivity.
  - reflexivity.
  - reflexivity.
  - reflexivity.
  - reflexivity.
  - reflexivity.
  - reflexivity.
  - reflexivity.
  - intros (l & Hl & _). apply elem_of_nil in Hl. exact Hl.
  - reflexivity.
Defined.

(** ** The reporting period *)

(** X22: the start of the default period is a Monday, between seven and
    thirteen days before today: the seven days from it are over before
    today begins, and the Monday after it is less than a week ago. *)
Theorem lastCompletedWeekMonday_spec (today : Z) :
  WeekdayOf (lastCompletedWeekMonday today) = Monday ∧
  lastCompletedWeekMonday today + 7 ≤ today < lastCompletedWeekMonday today + 14.
Proof.
  unfold lastCompletedWeekMonday, WeekdayOf.
  pose proof (Z.mod_pos_bound (today + 4) 7 ltac:(lia)) as Hmod.
  pose proof (Z.div_mod (today + 4) 7 ltac:(lia)) as Hdiv.
  assert (∀ x q, x = 1 + q * 7 → x mod 7 = 1) as Hone.
  { intros x q ->. by rewrite Z.mod_add by lia. }
  assert ((today + 4) mod 7 = 0 ∨ (today + 4) mod 7 = 1 ∨
          (today + 4) mod 7 = 2 ∨ (today + 4) mod 7 = 3 ∨
          (today + 4) mod 7 = 4 ∨ (today + 4) mod 7 = 5 ∨
          (today + 4) mod 7 = 6) as Hcases by lia.
  destruct Hcases as [Hwd|[Hwd|[Hwd|[Hwd|[Hwd|[Hwd|Hwd]]]]]];
    rewrite Hwd; cbn [Z.eqb]; (split; [|lia]).
  - by rewrite (Hone _ ((today + 4) `div` 7 - 2)) by lia.
  - by rewrite (Hone _ ((today + 4) `div` 7 - 1)) by lia.
  - by rewrite (Hone _ ((today + 4) `div` 7 - 1)) by lia.
  - by rewrite (Hone _ ((today + 4) `div` 7 - 1)) by lia.
  - by rewrite (Hone _ ((today + 4) `div` 7 - 1)) by lia.
  - by rewrite (Hone _ ((today + 4) `div` 7 - 1)) by lia.
  - by rewrite (Hone _ ((today + 4) `div` 7 - 1)) by lia.
Qed.

(** X23: the events kept are those created strictly after the start and
    strictly before the end of the period, an event created at the start
    or at the end being dropped, and they are kept in the order in which
    they came. *)
Theorem filterEventsForTime_window (duration : Z)
    (unfiltered : list stampedEvent) (startTime : Z) :
  (∀ e, e ∈ filterEventsForTime duration unfiltered startTime
        ↔ e ∈ unfiltered ∧ startTime < CreatedAt e < startTime + duration) ∧
  filterEventsForTime duration unfiltered startTime `sublist_of` unfiltered.
Proof.
  induction unfiltered as [|e0 unfiltered [IHin IHsub]]; cbn.
  - split; [|done]. intros e. split; [by intros ?%elem_of_nil|].
    by intros [?%elem_of_nil _].
  - destruct (startTime <? CreatedAt e0) eqn:Hafter;
      destruct (CreatedAt e0 <? startTime + duration) eqn:Hbefore; cbn;
      rewrite ?Z.ltb_lt, ?Z.ltb_ge in Hafter, Hbefore.
    1: split; [|by apply sublist_skip].
    2-4: split; [|by apply sublist_cons].
    all: intros e; rewrite ?elem_of_cons, IHin; split;
      [intros; try naive_solver | intros [[->|?] ?]; try lia; naive_solver].
Qed.

(** X24: a period of at most one nanosecond keeps no event. *)
Theorem filterEventsForTime_short (duration : Z)
    (unfiltered : list stampedEvent) (startTime : Z) :
  duration ≤ 1 →
  filterEventsForTime duration unfiltered startTime = [].
Proof.
  intros Hd. induction unfiltered as [|e0 unfiltered IH]; cbn; [done|].
  destruct (startTime <? CreatedAt e0) eqn:Hafter;
    destruct (CreatedAt e0 <? startTime + duration) eqn:Hbefore; cbn;
    rewrite ?Z.ltb_lt, ?Z.ltb_ge in Hafter, Hbefore; [lia|done..].
Qed.

Lemma filterEventsForTime_short_witness :
  filterEventsForTime 0
    [ {| CreatedAt := 5; event := {| ParsePayload := Some PushEvent |} |} ] 5
  = [].
Proof. apply filterEventsForTime_short. lia. Defined.

(** ** Listing the events *)

Lemma listEvents_loop_pages (ListPage : Z → option (list Event * Z))
    (batches : list (list Event)) (page : Z) (fuel : nat)
    (events : list Event) :
  pagesFrom ListPage page batches →
  (length batches ≤ fuel)%nat →
  listEvents_loop ListPage fuel events page
  = Listed (events ++ concat batches).
Proof.
  intros Hpages. revert fuel events.
  induction Hpages as [page e Hlast|page e NextPage batches Hpage Hnext _ IH];
    intros fuel events Hfuel; (destruct fuel as [|fuel]; [cbn in Hfuel; lia|]).
  - cbn. rewrite Hlast. cbn. by rewrite app_nil_r.
  - cbn. rewrite Hpage. apply Z.eqb_neq in Hnext. rewrite Hnext.
    rewrite IH by (cbn in Hfuel; lia). by rewrite <- app_assoc.
Qed.

(** X25: when the replies form a chain of pages from page 1 to a page
    without a next page, listing gives the events of all pages, in the
    order of the pages, provided the loop is allowed one iteration for
    each of them. *)
Theorem listEvents_pages (ListPage : Z → option (list Event * Z))
    (batches : list (list Event)) (fuel : nat) :
  pagesFrom ListPage 1 batches →
  (length batches ≤ fuel)%nat →
  listEvents ListPage fuel = Listed (concat batches).
Proof.
  intros Hpages Hfuel.
  by apply (listEvents_loop_pages ListPage batches 1 fuel []).
Qed.

Lemma listEvents_pages_witness :
  listEvents twoPages 2 = Listed Sample.events.
Proof.
  apply (listEvents_pages twoPages
           [take 2 Sample.events; drop 2 Sample.events] 2).
  - eapply pagesFrom_next; [reflexivity|discriminate|].
    apply pagesFrom_last. reflexivity.
  - cbn. lia.
Defined.

(** ** The token *)

Lemma length_app_s (s t : string) :
  String.length (s +:+ t) = (String.length s + String.length t)%nat.
Proof.
  induction s as [|c s IH]; [done|]. rewrite app_String. cbn. by rewrite IH.
Qed.

Lemma take_app_s (s t : string) : Strings.take (String.length s) (s +:+ t) = s.
Proof.
  induction s as [|c s IH]; [done|]. rewrite app_String. cbn. by rewrite IH.
Qed.

Lemma take_drop_s (n : nat) (s : string) :
  Strings.take n s +:+ Strings.drop n s = s.
Proof.
  revert s. induction n as [|n IH]; intros s; [done|].
  destruct s as [|c s]; [done|]. cbn. by rewrite app_String, IH.
Qed.

(** X26: the token is the content of the file without one newline at its
    end: a content that ends with a newline loses exactly that one, even
    when another newline comes before it, and any other content is the
    token as it is. *)
Theorem readOauthToken_strips_one_newline :
  (∀ token, readOauthToken (Some (token +:+ newline)) = Some token) ∧
  (∀ s token, readOauthToken (Some s) = Some token →
              s = token +:+ newline ∨
              (s = token ∧ Strings.HasSuffix s newline = false)) ∧
  readOauthToken None = None.
Proof.
  split; [|split; [|done]].
  - intros token. unfold readOauthToken, Strings.TrimSuffix, Strings.HasSuffix.
    rewrite length_app_s. cbn [String.length newline].
    replace (String.length token + 1 - 1)%nat with (String.length token)
      by lia.
    rewrite drop_app, take_app_s.
    rewrite bool_decide_eq_true_2 by done.
    by destruct (Nat.leb_spec 1 (String.length token + 1)); [|lia].
  - intros s token. unfold readOauthToken, Strings.TrimSuffix.
    destruct (Strings.HasSuffix s newline) eqn:Hsuffix; intros [= <-].
    + left. unfold Strings.HasSuffix in Hsuffix.
      apply andb_prop in Hsuffix as [_ Hdrop%bool_decide_eq_true].
      rewrite <- (take_drop_s (String.length s - String.length newline) s)
        at 1.
      by rewrite Hdrop.
    + by right.
Qed.

Lemma readOauthToken_strips_one_newline_witness :
  readOauthToken (Some ("0123abcd" +:+ newline +:+ newline))
  = Some ("0123abcd" +:+ newline).
Proof.
  destruct readOauthToken_strips_one_newline as [Hstrip _].
  rewrite <- (Hstrip ("0123abcd" +:+ newline)). reflexivity.
Defined.

(** ** The name registry of [eventSets] *)

(** X27: the [addName] of [eventSets] keeps the first name too: after
    naming a sequence of items in turn, an identifier that had a name has
    kept it, any other has the label of the first item of the sequence
    with that identifier, and the six sets are as they were. *)
Theorem eventSets_addName_first_wins {A : Type} `{nameable A}
    (l : list A) (es : eventSets) :
  (∀ u, names (foldl eventSets_addName es l) !! u
        = match names es !! u with
          | Some name => Some name
          | None => formatName <$> head (filter (λ n, GetHTMLURL n = u) l)
          end) ∧
  sixSets (foldl eventSets_addName es l) = sixSets es.
Proof.
  revert es. induction l as [|n l IH]; intros es; cbn [foldl].
  - split; [|done]. intros u. by destruct (names es !! u).
  - destruct (IH (eventSets_addName es n)) as [IHnames ->].
    split.
    + intros u. rewrite IHnames, filter_cons. unfold eventSets_addName.
      destruct (names es !! GetHTMLURL n) as [name|] eqn:Hname.
      * destruct (decide (GetHTMLURL n = u)) as [<-|Hne];
          [by rewrite Hname|done].
      * cbn [names]. destruct (decide (GetHTMLURL n = u)) as [<-|Hne].
        -- by rewrite lookup_insert_eq, Hname.
        -- by rewrite lookup_insert_ne.
    + unfold eventSets_addName. by destruct (names es !! GetHTMLURL n).
Qed.

(** ** The earlier variant *)

Lemma Legacy_foldl_delete_both (l : list url) (e : eventSets) :
  let e' :=
    foldl (λ e pr, Legacy.deleteInProgress (Legacy.deleteUnderReview e pr) pr)
      e l in
  names e' = names e ∧ merged e' = merged e ∧ abandoned e' = abandoned e ∧
  reviewed e' = reviewed e ∧ issues e' = issues e ∧
  underReview e' = underReview e ∖ list_to_set l ∧
  inProgress e' = inProgress e ∖ list_to_set l.
Proof.
  revert e. induction l as [|pr l IH]; intros e; cbn.
  - repeat split; set_solver.
  - destruct (IH (Legacy.deleteInProgress (Legacy.deleteUnderReview e pr) pr))
      as (-> & -> & -> & -> & -> & -> & ->).
    cbn. repeat split; set_solver.
Qed.

Lemma Legacy_foldl_deleteInProgress (l : list url) (e : eventSets) :
  let e' := foldl Legacy.deleteInProgress e l in
  names e' = names e ∧ merged e' = merged e ∧ abandoned e' = abandoned e ∧
  reviewed e' = reviewed e ∧ issues e' = issues e ∧
  underReview e' = underReview e ∧
  inProgress e' = inProgress e ∖ list_to_set l.
Proof.
  revert e. induction l as [|pr l IH]; intros e; cbn.
  - repeat split; set_solver.
  - destruct (IH (Legacy.deleteInProgress e pr))
      as (-> & -> & -> & -> & -> & -> & ->).
    cbn. repeat split; set_solver.
Qed.

(** What [cleanUp] leaves, set by set. *)
Lemma Legacy_cleanUp_eq (e : eventSets) :
  names (Legacy.cleanUp e) = names e ∧
  merged (Legacy.cleanUp e) = merged e ∧
  abandoned (Legacy.cleanUp e) = abandoned e ∧
  reviewed (Legacy.cleanUp e) = reviewed e ∧
  issues (Legacy.cleanUp e) = issues e ∧
  underReview (Legacy.cleanUp e)
  = underReview e ∖ (merged e ∪ abandoned e) ∧
  inProgress (Legacy.cleanUp e)
  = inProgress e ∖ (merged e ∪ abandoned e ∪ underReview e).
Proof.
  unfold Legacy.cleanUp.
  pose proof (Legacy_foldl_delete_both (elements (merged e)) e) as H1.
  cbn zeta in H1. set (e1 := foldl _ e (elements (merged e))) in *.
  destruct H1 as (Hn1 & Hm1 & Ha1 & Hr1 & Hi1 & Hu1 & Hp1).
  pose proof (Legacy_foldl_delete_both (elements (abandoned e1)) e1) as H2.
  cbn zeta in H2. set (e2 := foldl _ e1 (elements (abandoned e1))) in *.
  destruct H2 as (Hn2 & Hm2 & Ha2 & Hr2 & Hi2 & Hu2 & Hp2).
  pose proof (Legacy_foldl_deleteInProgress (elements (underReview e2)) e2)
    as H3.
  cbn zeta in H3. destruct H3 as (-> & -> & -> & -> & -> & -> & ->).
  rewrite Hn2, Hm2, Ha2, Hr2, Hi2, Hu2, Hp2.
  rewrite Hn1, Hm1, Ha1, Hr1, Hi1, Hu1, Hp1.
  rewrite !list_to_set_elements_L.
  repeat split; try done.
  - set_solver.
  - apply set_eq. intros u. set_unfold.
    destruct (decide (u ∈ merged e)), (decide (u ∈ abandoned e)),
      (decide (u ∈ underReview e)); naive_solver.
Qed.

(** X28: after [cleanUp] nothing that is merged or abandoned is under
    review or in progress, and nothing under review is in progress; the
    sets merged, abandoned, reviewed and issues and the registry are as
    they were. *)
Theorem Legacy_cleanUp_disjoint (e : eventSets) :
  (merged e ∪ abandoned e) ## underReview (Legacy.cleanUp e) ∧
  (merged e ∪ abandoned e) ## inProgress (Legacy.cleanUp e) ∧
  underReview (Legacy.cleanUp e) ## inProgress (Legacy.cleanUp e) ∧
  names (Legacy.cleanUp e) = names e ∧
  merged (Legacy.cleanUp e) = merged e ∧
  abandoned (Legacy.cleanUp e) = abandoned e ∧
  reviewed (Legacy.cleanUp e) = reviewed e ∧
  issues (Legacy.cleanUp e) = issues e.
Proof.
  destruct (Legacy_cleanUp_eq e) as (-> & -> & -> & -> & -> & -> & ->).
  repeat split; set_solver.
Qed.

(** X29: [cleanUp] drops no pull request altogether: the union of merged,
    abandoned, under review and in progress is what it was; and a second
    [cleanUp] changes nothing. *)
Theorem Legacy_cleanUp_keeps (e : eventSets) :
  merged (Legacy.cleanUp e) ∪ abandoned (Legacy.cleanUp e) ∪
  underReview (Legacy.cleanUp e) ∪ inProgress (Legacy.cleanUp e)
  = merged e ∪ abandoned e ∪ underReview e ∪ inProgress e ∧
  Legacy.cleanUp (Legacy.cleanUp e) = Legacy.cleanUp e.
Proof.
  split.
  - destruct (Legacy_cleanUp_eq e) as (_ & -> & -> & _ & _ & -> & ->).
    apply set_eq. intros u. set_unfold.
    destruct (decide (u ∈ merged e)), (decide (u ∈ abandoned e)),
      (decide (u ∈ underReview e)); naive_solver.
  - destruct (Legacy_cleanUp_eq (Legacy.cleanUp e))
      as (Hn & Hm & Ha & Hr & Hi & Hu & Hp).
    destruct (Legacy_cleanUp_eq e) as (Hn' & Hm' & Ha' & Hr' & Hi' & Hu' & Hp').
    destruct (Legacy.cleanUp (Legacy.cleanUp e)) as [n2 m2 a2 u2 p2 r2 i2].
    destruct (Legacy.cleanUp e) as [n1 m1 a1 u1 p1 r1 i1].
    cbn in *. subst n2 m2 a2 r2 i2. f_equal.
    + subst. set_solver.
    + subst. set_solver.
Qed.

Lemma eventSets_addName_named {A : Type} `{nameable A}
    (e : eventSets) (n : A) :
  is_Some (names (eventSets_addName e n) !! GetHTMLURL n) ∧
  (∀ u, is_Some (names e !! u) → is_Some (names (eventSets_addName e n) !! u))
  ∧ sixSets (eventSets_addName e n) = sixSets e.
Proof.
  unfold eventSets_addName.
  destruct (names e !! GetHTMLURL n) as [name|] eqn:Hname; cbn.
  - rewrite Hname. by repeat split.
  - rewrite lookup_insert_eq. split; [done|]. split; [|done].
    intros u Hu. destruct (decide (GetHTMLURL n = u)) as [->|Hne].
    + by rewrite lookup_insert_eq.
    + by rewrite lookup_insert_ne.
Qed.

Lemma Legacy_allNamed_addName {A : Type} `{nameable A}
    (e : eventSets) (n : A) (add : eventSets → url → eventSets) :
  (∀ e' u, names (add e' u) = names e' ∧
           ∀ u', u' ∈ ⋃ (sixSets (add e' u)) → u' = u ∨ u' ∈ ⋃ (sixSets e')) →
  Legacy.allNamed e →
  Legacy.allNamed (add (eventSets_addName e n) (Legacy.getURL n)).
Proof.
  intros Hadd Hnamed u Hu.
  destruct (eventSets_addName_named e n) as (Hn & Hkeep & Hsets).
  destruct (Hadd (eventSets_addName e n) (Legacy.getURL n)) as [-> Hin].
  destruct (Hin u Hu) as [->|Hu']; [done|].
  apply Hkeep, Hnamed. by rewrite <- Hsets.
Qed.

Lemma Legacy_routeEvent_allNamed (user : string) (e : eventSets)
    (p : Legacy.Payload) :
  Legacy.allNamed e → Legacy.allNamed (Legacy.routeEvent user e p).
Proof.
  intros Hnamed.
  assert (∀ add, add ∈ [Legacy.addMerged; Legacy.addAbandoned;
                        Legacy.addUnderReview; Legacy.addInProgress;
                        Legacy.addReviewed; Legacy.addIssues] →
    ∀ e' u, names (add e' u) = names e' ∧
            ∀ u', u' ∈ ⋃ (sixSets (add e' u)) → u' = u ∨ u' ∈ ⋃ (sixSets e'))
    as Hadds.
  { intros add Hin e' u.
    repeat (apply elem_of_cons in Hin as [->|Hin]);
      [..|by apply elem_of_nil in Hin];
      (split; [done|]); unfold sixSets; cbn; set_solver. }
  assert (∀ (A : Type) (HA : nameable A) (n : A),
    Legacy.allNamed (eventSets_addName e n)) as Hname.
  { intros A HA n u Hu.
    destruct (eventSets_addName_named e n) as (_ & Hkeep & Hsets).
    apply Hkeep, Hnamed. by rewrite <- Hsets. }
  destruct p as [i|a i|a pr|pr| | | | |]; cbn [Legacy.routeEvent]; try done;
    break_ifs;
    first [ by apply Hname
          | apply Legacy_allNamed_addName; [|done]; apply Hadds;
            set_solver ].
Qed.

(** X30: when the discovery of the earlier variant is over, every member
    of the six sets has a name, so the report has a line for each, nothing
    merged or abandoned is under review or in progress, and nothing under
    review is in progress. *)
Theorem Legacy_organizeEvents_sets (user : string)
    (events : list Legacy.Event) (es : eventSets) :
  Legacy.organizeEvents user events = Ok es →
  (∀ u, u ∈ ⋃ (sixSets es) → is_Some (names es !! u)) ∧
  (merged es ∪ abandoned es) ## (underReview es ∪ inProgress es) ∧
  underReview es ## inProgress es.
Proof.
  unfold Legacy.organizeEvents.
  destruct (Legacy.parsePayloads events) as [parsed|]; cbn; [|done].
  intros [= <-].
  set (e0 := {| names := ∅; merged := ∅; abandoned := ∅; underReview := ∅;
                inProgress := ∅; reviewed := ∅; issues := ∅ |}).
  assert (Legacy.allNamed (foldl (Legacy.routeEvent user) e0 parsed))
    as Hnamed.
  { assert (Legacy.allNamed e0) as H0.
    { intros u Hu. unfold sixSets in Hu. cbn in Hu. set_solver. }
    revert H0. generalize e0. clear e0.
    induction parsed as [|p parsed IH]; intros e0 H0; [done|].
    cbn. apply IH. by apply Legacy_routeEvent_allNamed. }
  set (e := foldl _ e0 parsed) in *.
  destruct (Legacy_cleanUp_eq e) as (Hn & Hm & Ha & Hr & Hi & Hur & Hip).
  split; [|rewrite Hm, Ha, Hur, Hip; split; set_solver].
  intros u Hu. rewrite Hn. apply Hnamed. unfold sixSets in *. cbn in *.
  rewrite Hm, Ha, Hr, Hi, Hur, Hip in Hu. set_solver.
Qed.

Lemma Legacy_organizeEvents_sets_witness :
  (∀ u, u ∈ ⋃ (sixSets Legacy.reopenedSets) →
        is_Some (names Legacy.reopenedSets !! u)) ∧
  (merged Legacy.reopenedSets ∪ abandoned Legacy.reopenedSets)
  ## (underReview Legacy.reopenedSets ∪ inProgress Legacy.reopenedSets) ∧
  underReview Legacy.reopenedSets ## inProgress Legacy.reopenedSets.
Proof.
  apply (Legacy_organizeEvents_sets Sample.me Legacy.reopened).
  vm_compute. reflexivity.
Defined.
